(** * Memory-Fragmentation-Analyzer: the fragmentation analysis of
      [testing.py] and the block pool it observes.

    The development has two parts.

    - [Analyzer] embeds the run-finding loop and the fragmentation metrics of
      [simulate_fragmentation_scenario] (testing.py, lines 216-250).
    - [Pool] models the block pool, its free queue and its prefix-cache index.
      Their code ([vllm.v1.core.block_pool], [vllm.v1.core.kv_cache_utils]) is
      imported by testing.py but is not part of the sources at hand, so these
      definitions follow the design document. *)

From Stdlib Require Import ZArith QArith Lia List Sorting.Sorted.
From Stdlib Require Import Floats.PrimFloat Numbers.Cyclic.Int63.Uint63.
From stdpp Require Import base option list sorting numbers strings gmap fin_maps.
Import ListNotations.

Local Open Scope Z_scope.

(** ** Exceptions and results *)

(** The Python exceptions the embedded code can raise, and the error classes of
    the pool. *)
Inductive exn : Type :=
| IndexError
| ValueError
| ZeroDivisionError
| InsufficientCapacity
| DoubleFreeError
| EmptyQueue
| AlreadyFreeError
| InvariantViolation.

Inductive result (A : Type) : Type :=
| Ok (a : A)
| Raise (e : exn).
Arguments Ok {A} a.
Arguments Raise {A} e.

#[global] Instance result_ret : MRet result := fun A a => Ok a.
#[global] Instance result_bind : MBind result := fun A B k r =>
  match r with
  | Ok a => k a
  | Raise e => Raise e
  end.

Module Analyzer.

(** *** Python built-ins used by the analysis *)

(** [sorted(xs)] on integers: the ascending rearrangement of [xs]. *)
Definition sorted (xs : list Z) : list Z := merge_sort Z.le xs.

(** [xs[-1]]: the last item, [IndexError] on the empty list. *)
Definition last_item (xs : list Z) : result Z :=
  match last xs with
  | Some x => Ok x
  | None => Raise IndexError
  end.

(** [max(...)] over a non-empty iterable, [ValueError] on an empty one. *)
Definition py_max (xs : list nat) : result nat :=
  match xs with
  | [] => Raise ValueError
  | x :: xs' => Ok (fold_left Nat.max xs' x)
  end.

(** [sum(...)] over naturals. *)
Definition py_sum (xs : list nat) : nat := fold_left Nat.add xs 0%nat.

(** [a / b] on integers (true division).  The quotient is kept as an exact
    rational; Python rounds it to the nearest binary64 value. *)
Definition true_div (a b : nat) : result Q :=
  match b with
  | O => Raise ZeroDivisionError
  | S _ => Ok (inject_Z (Z.of_nat a) / inject_Z (Z.of_nat b))%Q
  end.

(** *** The run-finding loop (lines 221-231) *)

(** The body of [for block_id in free_block_ids[1:]], with the loop state
    [(runs, current_run)] passed explicitly. *)
Fixpoint run_loop (rest : list Z) (runs : list (list Z)) (current_run : list Z)
  : result (list (list Z) * list Z) :=
  match rest with
  | [] => Ok (runs, current_run)
  | block_id :: rest' =>
      prev ← last_item current_run;
      if block_id =? prev + 1
      then run_loop rest' runs (current_run ++ [block_id])
      else run_loop rest' (runs ++ [current_run]) [block_id]
  end.

Definition find_runs (free_block_ids : list Z) : result (list (list Z)) :=
  match free_block_ids with
  | [] => Ok []
  | first :: rest =>
      '(runs, current_run) ← run_loop rest [] [first];
      Ok (runs ++ [current_run])
  end.

(** *** The metrics (lines 238-250) *)

Record Metrics : Type := mkMetrics {
  number_of_runs : nat;
  largest_run : nat;
  average_run : Q;
  total_free : nat;
  external_frag : Q
}.

(** Which arm of the conditional expression on line 249 is evaluated. *)
Inductive frag_arm : Type := QuotientArm | ZeroArm.

Definition frag_arm_taken (free_block_ids : list Z) : frag_arm :=
  match free_block_ids with
  | [] => ZeroArm
  | _ :: _ => QuotientArm
  end.

(** [1 - (largest_run / len(free_block_ids)) if free_block_ids else 0] *)
Definition external_frag_expr (largest_run : nat) (free_block_ids : list Z)
  : result Q :=
  match frag_arm_taken free_block_ids with
  | QuotientArm =>
      q ← true_div largest_run (length free_block_ids);
      Ok (1 - q)%Q
  | ZeroArm => Ok 0%Q
  end.

(** The block under [if runs:]. *)
Definition fragmentation_metrics (free_block_ids : list Z) (runs : list (list Z))
  : result Metrics :=
  largest ← py_max (map (@length Z) runs);
  average ← true_div (py_sum (map (@length Z) runs)) (length runs);
  frag ← external_frag_expr largest free_block_ids;
  Ok {| number_of_runs := length runs;
        largest_run := largest;
        average_run := average;
        total_free := length free_block_ids;
        external_frag := frag |}.

(** The metrics in closed form: what [fragmentation_metrics] returns when
    neither the ids nor the runs are empty (lemma [fragmentation_metrics_Ok]). *)
Definition metrics_of (fids : list Z) (G : list (list Z)) : Metrics :=
  {| number_of_runs := length G;
     largest_run := max_list (map (@length Z) G);
     average_run := (inject_Z (Z.of_nat (py_sum (map (@length Z) G)))
                     / inject_Z (Z.of_nat (length G)))%Q;
     total_free := length fids;
     external_frag := (1 - inject_Z (Z.of_nat (max_list (map (@length Z) G)))
                           / inject_Z (Z.of_nat (length fids)))%Q |}.

(** The two quotients as Python computes them, in binary64.  Counts below
    2^53 convert to floats exactly, so the IEEE division below gives the
    correctly rounded quotient that Python's [/] on integers returns.  They
    are meant for the branch under [if runs:], where no divisor is 0. *)
Definition float_of_nat (n : nat) : float :=
  PrimFloat.of_uint63 (Uint63.of_Z (Z.of_nat n)).

Definition average_run_float (runs : list (list Z)) : float :=
  PrimFloat.div (float_of_nat (py_sum (map (@length Z) runs)))
                (float_of_nat (length runs)).

Definition external_frag_float (largest_run : nat) (free_block_ids : list Z)
  : float :=
  match frag_arm_taken free_block_ids with
  | QuotientArm =>
      PrimFloat.sub (float_of_nat 1)
        (PrimFloat.div (float_of_nat largest_run)
                       (float_of_nat (length free_block_ids)))
  | ZeroArm => float_of_nat 0
  end.

(** What the analysis prints: the sorted ids, the runs with their count, and
    the metrics when there is at least one run. *)
Record Report : Type := mkReport {
  free_block_ids : list Z;
  runs : list (list Z);
  run_count : nat;
  metrics : option Metrics
}.

Definition analyze (ids : list Z) : result Report :=
  let free_block_ids := sorted ids in
  runs ← find_runs free_block_ids;
  match runs with
  | [] =>
      Ok {| free_block_ids := free_block_ids; runs := runs;
            run_count := length runs; metrics := None |}
  | _ :: _ =>
      m ← fragmentation_metrics free_block_ids runs;
      Ok {| free_block_ids := free_block_ids; runs := runs;
            run_count := length runs; metrics := Some m |}
  end.

(** *** Maximal runs of consecutive integers, as the design document words them

    These definitions do not come from the code: they say what a partition into
    maximal runs is, and the loop above is compared with them. *)

(** A run: a non-empty sequence in which each item is its predecessor plus 1. *)
Inductive consecutive : list Z -> Prop :=
| consecutive_one x : consecutive [x]
| consecutive_cons x y r :
    y = x + 1 -> consecutive (y :: r) -> consecutive (x :: y :: r).

(** Neighbouring runs cannot be joined: the next run does not start at the
    successor of the last item of the run before it. *)
Definition gap (r1 r2 : list Z) : Prop :=
  forall a b, last r1 = Some a -> head r2 = Some b -> b <> a + 1.

Inductive gapped : list (list Z) -> Prop :=
| gapped_nil : gapped []
| gapped_one r : gapped [r]
| gapped_cons r1 r2 rs :
    gap r1 r2 -> gapped (r2 :: rs) -> gapped (r1 :: r2 :: rs).

Definition maximal_runs (rs : list (list Z)) (l : list Z) : Prop :=
  concat rs = l /\ Forall consecutive rs /\ gapped rs.

(** A direct recursive construction of the maximal runs: put [run] in front of
    the runs [G] of the rest, joined to the first of them when it continues
    [run]. *)
Definition attach (run : list Z) (G : list (list Z)) : list (list Z) :=
  match G, last run with
  | (y :: r) :: rs, Some a =>
      if y =? a + 1 then (run ++ y :: r) :: rs else run :: G
  | _, _ => run :: G
  end.

Fixpoint group_runs (l : list Z) : list (list Z) :=
  match l with
  | [] => []
  | x :: l' => attach [x] (group_runs l')
  end.

(** The index of the run an id lies in. *)
Definition in_run (rs : list (list Z)) (i : nat) (x : Z) : Prop :=
  exists r, rs !! i = Some r /\ x ∈ r.

End Analyzer.

(** ** The block pool

    testing.py imports [BlockPool], [FreeKVCacheBlockQueue], [KVCacheBlock]
    and [BlockHashToBlockMap] from vLLM; their code is not among the sources at
    hand.  Everything in this module is therefore written after the design
    document (sections 3 and 4). *)
Module Pool.

(** Modelled from the spec: the key of the prefix cache, a content hash paired
    with a cache-group id (section 3, PrefixCacheIndex).  The hash is opaque
    and only compared for equality; testing.py builds it from bytes. *)
Abbreviation Key := (string * Z)%type.

(** Modelled from the spec: a block (section 3, Block).  The fields
    [prev_free] and [next_free] of the design are the block's neighbours in
    the free queue; here the queue records the order of the ids itself, as the
    design notes (section 9) propose. *)
Record Block : Type := mkBlock {
  id : nat;
  ref_count : Z;
  content_hash : option Key;
  is_null : bool
}.

Definition with_ref_count (n : Z) (b : Block) : Block :=
  {| id := id b; ref_count := n; content_hash := content_hash b;
     is_null := is_null b |}.

Definition with_content_hash (h : option Key) (b : Block) : Block :=
  {| id := id b; ref_count := ref_count b; content_hash := h;
     is_null := is_null b |}.

(** Modelled from the spec: the free queue (sections 3 and 4.2): the ids of
    the unreferenced blocks from head to tail, and the size kept as a counter
    of its own. *)
Record FreeBlockQueue : Type := mkQueue {
  chain : list nat;
  num_free : nat
}.

Module FreeBlockQueue.

(** Modelled from the spec: [construct(initial_blocks)] links the given blocks
    in the given order. *)
Definition construct (initial_blocks : list Block) : FreeBlockQueue :=
  {| chain := id <$> initial_blocks; num_free := length initial_blocks |}.

(** Modelled from the spec: [take_front()] removes and returns the head and
    decrements the size; [EmptyQueue] when the size is 0. *)
Definition take_front (q : FreeBlockQueue) : result (nat * FreeBlockQueue) :=
  match num_free q with
  | O => Raise EmptyQueue
  | S n =>
      match chain q with
      | [] => Raise InvariantViolation
      | b :: rest => Ok (b, {| chain := rest; num_free := n |})
      end
  end.

(** Modelled from the spec: [push_back(block)] appends at the tail; the block
    must be unreferenced and not linked already, else [AlreadyFreeError]. *)
Definition push_back (b : Block) (q : FreeBlockQueue) : result FreeBlockQueue :=
  if bool_decide (ref_count b = 0 /\ id b ∉ chain q)
  then Ok {| chain := chain q ++ [id b]; num_free := S (num_free q) |}
  else Raise AlreadyFreeError.

(** Modelled from the spec: putting a block back at the head, which a failed
    [allocate] uses to return the blocks it has popped (section 4.4). *)
Definition push_front (b : nat) (q : FreeBlockQueue) : FreeBlockQueue :=
  {| chain := b :: chain q; num_free := S (num_free q) |}.

(** Modelled from the spec: [remove(block)] detaches a block from wherever it
    sits in the chain and decrements the size.  The design does not say what
    happens when the block is not linked; that is reported as
    [InvariantViolation] here. *)
Definition remove (b : nat) (q : FreeBlockQueue) : result FreeBlockQueue :=
  if bool_decide (b ∈ chain q)
  then Ok {| chain := filter (fun x => x <> b) (chain q);
             num_free := pred (num_free q) |}
  else Raise InvariantViolation.

(** Modelled from the spec: [size()] returns the tracked counter. *)
Definition size (q : FreeBlockQueue) : nat := num_free q.

(** Modelled from the spec: [snapshot()] lists the blocks from head to tail. *)
Definition snapshot (q : FreeBlockQueue) : list nat := chain q.

End FreeBlockQueue.

(** Modelled from the spec: the prefix-cache index (sections 3 and 4.3), a map
    from keys to the one block id stored under each. *)
Module PrefixCacheIndex.

(** Modelled from the spec: [insert(key, block)] adds [block.id] under [key]
    unless [key] has an entry already; then it does nothing. *)
Definition insert (key : Key) (b : Block) (idx : gmap Key nat) : gmap Key nat :=
  match idx !! key with
  | Some _ => idx
  | None => <[key := id b]> idx
  end.

(** Modelled from the spec: [lookup(key)] returns the stored block id. *)
Definition lookup (key : Key) (idx : gmap Key nat) : option nat := idx !! key.

(** Modelled from the spec: [remove(key, block_id)] deletes the entry only if
    the id stored under [key] is [block_id]. *)
Definition remove (key : Key) (block_id : nat) (idx : gmap Key nat)
  : gmap Key nat :=
  if bool_decide (idx !! key = Some block_id) then delete key idx else idx.

(** Modelled from the spec: [size()] counts the keys that are mapped. *)
Definition size (idx : gmap Key nat) : nat := base.size idx.

End PrefixCacheIndex.

(** Modelled from the spec: the pool (section 3, BlockPool): the fixed array
    of blocks indexed by id, the free queue, the index and the reserved null
    block, which is not one of the blocks of the array. *)
Record BlockPool : Type := mkPool {
  capacity : nat;
  hash_block_size : Z;
  blocks : list Block;
  free_block_queue : FreeBlockQueue;
  cache_index : gmap Key nat;
  null_block : Block
}.

Definition with_blocks (bs : list Block) (p : BlockPool) : BlockPool :=
  {| capacity := capacity p; hash_block_size := hash_block_size p;
     blocks := bs; free_block_queue := free_block_queue p;
     cache_index := cache_index p; null_block := null_block p |}.

Definition with_queue (q : FreeBlockQueue) (p : BlockPool) : BlockPool :=
  {| capacity := capacity p; hash_block_size := hash_block_size p;
     blocks := blocks p; free_block_queue := q;
     cache_index := cache_index p; null_block := null_block p |}.

Definition with_index (idx : gmap Key nat) (p : BlockPool) : BlockPool :=
  {| capacity := capacity p; hash_block_size := hash_block_size p;
     blocks := blocks p; free_block_queue := free_block_queue p;
     cache_index := idx; null_block := null_block p |}.

Module BlockPool.

(** Modelled from the spec: [new(capacity, hash_block_size)]: all blocks are
    constructed unreferenced and free, with ids 0 .. capacity-1 (sections 3
    and 6). *)
Definition new (capacity : nat) (hash_block_size : Z) : BlockPool :=
  let bs := (fun i => mkBlock i 0 None false) <$> seq 0 capacity in
  {| capacity := capacity; hash_block_size := hash_block_size;
     blocks := bs; free_block_queue := FreeBlockQueue.construct bs;
     cache_index := ∅; null_block := mkBlock 0 0 None true |}.

(** Modelled from the spec: [free_count()] delegates to the queue's size. *)
Definition free_count (p : BlockPool) : nat :=
  FreeBlockQueue.size (free_block_queue p).

(** The [ref_count] of the block with id [b], if the pool has such a block. *)
Definition ref_count_of (b : nat) (p : BlockPool) : option Z :=
  ref_count <$> blocks p !! b.

(** The number of blocks with [ref_count > 0]. *)
Definition referenced_count (p : BlockPool) : nat :=
  length (filter (fun b => 0 < ref_count b) (blocks p)).

(** Modelled from the spec: a block taken for a new allocation loses its cached
    identity: it is removed from the index and its hash is cleared
    (section 4.4, allocate). *)
Definition evict (b : nat) (p : BlockPool) : BlockPool :=
  match blocks p !! b with
  | Some blk =>
      match content_hash blk with
      | Some key =>
          with_blocks (alter (with_content_hash None) b (blocks p))
            (with_index (PrefixCacheIndex.remove key b (cache_index p)) p)
      | None => p
      end
  | None => p
  end.

(** How far an allocation got: all blocks taken, or the error that stopped it,
    each with the pool at that point and the blocks popped so far. *)
Inductive progress : Type :=
| Done (p : BlockPool) (popped : list nat)
| Failed (e : exn) (p : BlockPool) (popped : list nat).

(** Modelled from the spec: the loop of [allocate(n)]: repeat n times, take the
    head of the free queue, evict it from the cache, set [ref_count = 1]. *)
Fixpoint allocate_loop (n : nat) (p : BlockPool) (popped : list nat) : progress :=
  match n with
  | O => Done p popped
  | S n' =>
      match FreeBlockQueue.take_front (free_block_queue p) with
      | Raise e => Failed e p popped
      | Ok (b, q) =>
          let p1 := evict b (with_queue q p) in
          let p2 := with_blocks (alter (with_ref_count 1) b (blocks p1)) p1 in
          allocate_loop n' p2 (popped ++ [b])
      end
  end.

(** Modelled from the spec: [allocate(n)] (sections 4.4 and 7).  On failure
    the blocks popped so far go back to the front of the queue in their
    original order, the blocks and the index are as before the call, and
    [EmptyQueue] is reported as [InsufficientCapacity]. *)
Definition allocate (n : nat) (p : BlockPool) : result (list nat) * BlockPool :=
  match allocate_loop n p [] with
  | Done p' popped => (Ok popped, p')
  | Failed e pf popped =>
      let q := foldr FreeBlockQueue.push_front (free_block_queue pf) popped in
      (Raise (match e with EmptyQueue => InsufficientCapacity | _ => e end),
       with_queue q p)
  end.

(** Modelled from the spec: [retain(block)] increments [ref_count]; queue and
    index are left alone.  A handle that is not a block of the pool is
    reported as [InvariantViolation]. *)
Definition retain (b : nat) (p : BlockPool) : result unit * BlockPool :=
  match blocks p !! b with
  | Some blk =>
      (Ok tt, with_blocks (alter (with_ref_count (ref_count blk + 1)) b (blocks p)) p)
  | None => (Raise InvariantViolation, p)
  end.

(** Modelled from the spec: releasing one block: [DoubleFreeError] when it is
    unreferenced already (or its count is negative), else decrement and, at 0,
    push it to the tail of the free queue; its hash and index entry stay. *)
Definition release_one (b : nat) (p : BlockPool) : result BlockPool :=
  match blocks p !! b with
  | Some blk =>
      if ref_count blk <=? 0 then Raise DoubleFreeError
      else
        let blk' := with_ref_count (ref_count blk - 1) blk in
        let p1 := with_blocks (alter (with_ref_count (ref_count blk - 1)) b (blocks p)) p in
        if ref_count blk' =? 0
        then q ← FreeBlockQueue.push_back blk' (free_block_queue p1);
             Ok (with_queue q p1)
        else Ok p1
  | None => Raise InvariantViolation
  end.

Fixpoint release_loop (bs : list nat) (p : BlockPool) : result BlockPool :=
  match bs with
  | [] => Ok p
  | b :: bs' => p' ← release_one b p; release_loop bs' p'
  end.

(** Modelled from the spec: [release(blocks)] (section 4.4); an error leaves
    no partial mutation behind (section 7). *)
Definition release (bs : list nat) (p : BlockPool) : result unit * BlockPool :=
  match release_loop bs p with
  | Ok p' => (Ok tt, p')
  | Raise e => (Raise e, p)
  end.

(** Modelled from the spec: [try_cache_lookup(hash, group_id)] (section 4.4):
    on a hit the block is taken off the free queue if it was unreferenced and
    its [ref_count] is bumped, in one step. *)
Definition try_cache_lookup (hash : string) (group_id : Z) (p : BlockPool)
  : result (option nat) * BlockPool :=
  match PrefixCacheIndex.lookup (hash, group_id) (cache_index p) with
  | None => (Ok None, p)
  | Some b =>
      match blocks p !! b with
      | None => (Raise InvariantViolation, p)
      | Some blk =>
          let bs := alter (with_ref_count (ref_count blk + 1)) b (blocks p) in
          if ref_count blk =? 0
          then match FreeBlockQueue.remove b (free_block_queue p) with
               | Ok q => (Ok (Some b), with_queue q (with_blocks bs p))
               | Raise e => (Raise e, p)
               end
          else (Ok (Some b), with_blocks bs p)
      end
  end.

(** *** What an allocation leaves behind *)

(** The hash of the block with id [b], if the pool has such a block and it
    carries one. *)
Definition content_hash_of (b : nat) (p : BlockPool) : option Key :=
  blocks p !! b ≫= content_hash.

(** A block once it has been handed out: referenced once, its hash cleared. *)
Definition handed_out (blk : Block) : Block :=
  {| id := id blk; ref_count := 1; content_hash := None;
     is_null := is_null blk |}.

(** A block after one release: one reference fewer, all else as it was. *)
Definition released (blk : Block) : Block :=
  with_ref_count (ref_count blk - 1) blk.

(** The index once the blocks [handed] of pool [p] have lost their cached
    identity: for each of them that carries a hash, the entry of its key goes
    if it names that block. *)
Definition evict_keys (handed : list nat) (p : BlockPool) : gmap Key nat :=
  foldl (fun idx b =>
           match content_hash_of b p with
           | Some key => PrefixCacheIndex.remove key b idx
           | None => idx
           end)
        (cache_index p) handed.

(** *** Sequences of operations *)

Inductive op : Type :=
| Allocate (n : nat)
| Retain (b : nat)
| Release (bs : list nat)
| TryCacheLookup (hash : string) (group_id : Z).

(** The pool after one operation, whatever it returned. *)
Definition step (p : BlockPool) (o : op) : BlockPool :=
  match o with
  | Allocate n => (allocate n p).2
  | Retain b => (retain b p).2
  | Release bs => (release bs p).2
  | TryCacheLookup hash group_id => (try_cache_lookup hash group_id p).2
  end.

Definition run (ops : list op) (p : BlockPool) : BlockPool := foldl step p ops.

(** [retain] is meant for a block the caller holds (section 4.4): the calls of
    a sequence keep to that when every retained block has [ref_count > 0] at
    the time of the call. *)
Definition held (b : nat) (p : BlockPool) : bool :=
  match blocks p !! b with
  | Some blk => bool_decide (0 < ref_count blk)
  | None => false
  end.

Fixpoint retains_held (ops : list op) (p : BlockPool) : bool :=
  match ops with
  | [] => true
  | o :: ops' =>
      match o with
      | Retain b => held b p
      | _ => true
      end && retains_held ops' (step p o)
  end.

(** *** Well-formed pools *)

(** The counter of the queue is the length of its chain. *)
Definition counter_tracks_chain (q : FreeBlockQueue) : Prop :=
  num_free q = length (chain q).

(** The invariants of section 3: the array holds the blocks 0 .. capacity-1,
    no count is negative, and the free queue holds each unreferenced block
    exactly once and no other block. *)
Record wf (p : BlockPool) : Prop := mkWf {
  wf_ids : id <$> blocks p = seq 0 (capacity p);
  wf_nonneg : forall b v, ref_count_of b p = Some v -> 0 <= v;
  wf_counter : counter_tracks_chain (free_block_queue p);
  wf_nodup : NoDup (chain (free_block_queue p));
  wf_free : forall b, b ∈ chain (free_block_queue p) <-> ref_count_of b p = Some 0
}.

End BlockPool.

(** *** The scenario of testing.py (lines 179-217) *)
Module Scenario.
Import BlockPool.

Definition pool0 : BlockPool := new 50 16.
Definition req1 : result (list nat) * BlockPool := allocate 10 pool0.
Definition req2 : result (list nat) * BlockPool := allocate 15 req1.2.
Definition req3 : result (list nat) * BlockPool := allocate 8 req2.2.

Definition blocks_of (r : result (list nat)) : list nat :=
  match r with
  | Ok bs => bs
  | Raise _ => []
  end.

(** [block_pool.free_blocks(req2_blocks)] *)
Definition freed : result unit * BlockPool := release (blocks_of req2.1) req3.2.

(** [[b.block_id for b in free_blocks]] *)
Definition free_ids : list Z :=
  map Z.of_nat (FreeBlockQueue.snapshot (free_block_queue freed.2)).

(** The free ids the design document expects: 10..24 and 41..49. *)
Definition expected_free_ids : list Z := seqZ 10 15 ++ seqZ 41 9.

End Scenario.

(** *** A pool with cached blocks

    A pool of capacity 3 in the states of section 4.4: block 0 is free and
    cached (FREE_CACHED), block 1 is held and cached (CACHED_ALLOCATED),
    block 2 is free and carries no hash (FREE). *)
Module Cached.
Import BlockPool.

Definition key0 : Key := ("hash_0"%string, 0).
Definition key1 : Key := ("hash_1"%string, 0).

Definition pool : BlockPool :=
  {| capacity := 3; hash_block_size := 16;
     blocks := [mkBlock 0 0 (Some key0) false;
                mkBlock 1 1 (Some key1) false;
                mkBlock 2 0 None false];
     free_block_queue := {| chain := [2; 0]%nat; num_free := 2 |};
     cache_index := <[key0 := 0%nat]> (<[key1 := 1%nat]> ∅);
     null_block := mkBlock 0 0 None true |}.

(** A hit on the free block 0, a hit on the held block 1, a second holder for
    block 0, both released once, an allocation, a miss, a release that frees
    block 1, and an allocation that fails. *)
Definition ops : list op :=
  [TryCacheLookup "hash_0" 0; TryCacheLookup "hash_1" 0; Retain 0;
   Release [0; 1]%nat; Allocate 1; TryCacheLookup "hash_2" 0;
   Release [1]%nat; Allocate 5].

End Cached.

End Pool.

(** ** The listing of the runs (testing.py, lines 233-235) *)
Module Listing.
Import Analyzer.





(** The number of places in a list where the next item is not the successor
    of the item before it. *)
Fixpoint gaps (l : list Z) : nat :=
  match l with
  | x :: (y :: _) as l' => ((if (y =? x + 1)%Z then 0 else 1) + gaps l')%nat
  | _ => 0%nat
  end.

(** Where run [j] starts in the list the runs were cut from, and the positions
    of that list that fall in run [j]. *)
Definition run_start (rs : list (list Z)) (j : nat) : nat :=
  length (concat (take j rs)).

Definition position_in_run (rs : list (list Z)) (j i : nat) : Prop :=
  exists r, rs !! j = Some r
            /\ (run_start rs j <= i < run_start rs j + length r)%nat.

(** [[b.block_id for b in free_blocks]] (lines 216-217) for any pool. *)
Definition free_ids_of (p : Pool.BlockPool) : list Z :=
  map Z.of_nat (Pool.FreeBlockQueue.snapshot (Pool.free_block_queue p)).

End Listing.

(** ** The script around the analysis (testing.py, lines 22-52 and 305-412)

    The explorations call into vLLM and PyTorch, and every function prints.
    What a call or a [print] does is a parameter here: it returns, or it
    raises an exception of one of the three classes the [except] clauses of
    the script tell apart. *)
Module Script.

Inductive exc_class : Type :=
| ImportError      (* ImportError and its subclass ModuleNotFoundError *)
| OtherException   (* any other subclass of Exception, UnicodeEncodeError too *)
| NonException.    (* KeyboardInterrupt, SystemExit: not caught by [except Exception] *)

Inductive outcome (A : Type) : Type :=
| Returns (a : A)
| Raises (c : exc_class).
Arguments Returns {A} a.
Arguments Raises {A} c.

(** *** Printing

    A console says what the [print] calls of one function do: [out k] is the
    outcome of its print call number [k], counted from 0.  A stdout that
    cannot encode a character of the text raises at that call
    (UnicodeEncodeError), a closed one raises at every call. *)
Definition console : Type := nat -> outcome unit.

(** A piece of a function body: from the number of prints done so far to its
    outcome and the number of prints done then.  The count outlives a raise,
    for the handler that prints after it. *)
Definition io (A : Type) : Type := nat -> outcome A * nat.

#[global] Instance io_ret : MRet io := fun A a n => (Returns a, n).
#[global] Instance io_bind : MBind io := fun A B k m n =>
  match m n with
  | (Returns a, n') => k a n'
  | (Raises c, n') => (Raises c, n')
  end.

(** A call whose outcome is given. *)
Definition call {A : Type} (o : outcome A) : io A := fun n => (o, n).

(** [print(...)] *)
Definition print (out : console) : io unit := fun n =>
  match out n with
  | Returns _ => (Returns tt, S n)
  | Raises c => (Raises c, n)
  end.

(** [k] print statements in a row. *)
Fixpoint prints (out : console) (k : nat) : io unit :=
  match k with
  | O => mret tt
  | S k' => _ ← print out; prints out k'
  end.

(** [try: body except ...: handler]: the handler chosen for the class of the
    exception runs; without one the exception goes on. *)
Definition try_except {A : Type} (body : io A)
    (handler : exc_class -> option (io A)) : io A := fun n =>
  match body n with
  | (Returns a, n') => (Returns a, n')
  | (Raises c, n') =>
      match handler c with
      | Some h => h n'
      | None => (Raises c, n')
      end
  end.

(** [except (ModuleNotFoundError, ImportError): on_import] *)
Definition except_import {A : Type} (on_import : io A)
  : exc_class -> option (io A) := fun c =>
  match c with
  | ImportError => Some on_import
  | _ => None
  end.

(** [except Exception: on_exception] *)
Definition except_exception {A : Type} (on_exception : io A)
  : exc_class -> option (io A) := fun c =>
  match c with
  | NonException => None
  | _ => Some on_exception
  end.

(** [except (ModuleNotFoundError, ImportError): on_import]
    [except Exception: on_exception] *)
Definition except_import_or_exception {A : Type} (on_import on_exception : io A)
  : exc_class -> option (io A) := fun c =>
  match c with
  | ImportError => Some on_import
  | OtherException => Some on_exception
  | NonException => None
  end.

(** A function body run from its first print. *)
Definition run_body {A : Type} (m : io A) : outcome A := (m 0%nat).1.

(** *** The explorations *)

(** [explore_block_structure()] (lines 22-52): [None] when [KVCacheBlock]
    cannot be imported; else a block with id 42 whose [ref_cnt] has been
    incremented once. *)
Definition explore_block_structure (out : console) (import_block : outcome unit)
  : outcome (option Pool.Block) :=
  run_body (
    _ ← prints out 3;                                      (* lines 24-26 *)
    imported ← try_except (_ ← call import_block; mret true)
                 (except_import (_ ← prints out 3; mret false)); (* lines 32-34 *)
    if imported : bool then
      let block := Pool.mkBlock 42 0 None false in
      _ ← prints out 7;                                    (* lines 40-46 *)
      let block := Pool.with_ref_count (Pool.ref_count block + 1) block in
      _ ← print out;                                       (* line 50 *)
      mret (Some block)
    else mret None).

(** The shape shared by [explore_free_block_queue], [explore_block_pool],
    [simulate_fragmentation_scenario] and [analyze_block_hash_to_block_map]
    (lines 57-65, 104-112, 169-177, 255-264): three lines of heading, then an
    import error is printed and raised again, otherwise the body runs.  The
    body, with the prints it does, is given by its outcome. *)
Definition guarded_exploration (out : console)
    (import_vllm : outcome unit) (body : outcome unit) : outcome unit :=
  run_body (
    _ ← prints out 3;
    _ ← try_except (call import_vllm)
          (except_import (_ ← print out; call (Raises ImportError)));
    call body).

(** [check_cuda_status()] (lines 305-328). *)
Definition check_cuda_status (out : console)
    (import_torch : outcome unit) (is_available : outcome bool)
    (cuda_version : outcome unit)
    (device_count : outcome unit) (device_name : outcome unit)
  : outcome bool :=
  run_body (
    _ ← prints out 3;                                      (* lines 307-309 *)
    imported ← try_except (_ ← call import_torch; mret true)
                 (except_import (_ ← prints out 2; mret false)); (* lines 314-315 *)
    if imported : bool then
      cuda_available ← call is_available;
      _ ← call cuda_version;
      _ ← prints out 2;                                    (* lines 320-321 *)
      _ ← (if cuda_available : bool
           then try_except
                  (_ ← call device_count; _ ← print out;   (* line 324 *)
                   _ ← call device_name; print out)        (* line 325 *)
                  (except_exception (print out))           (* line 327 *)
           else mret tt);
      mret cuda_available
    else mret false).

(** *** [main] *)

(** What the six calls of [main] do. *)
Record Calls : Type := mkCalls {
  block_structure : outcome (option Pool.Block);
  cuda_status : outcome bool;
  free_block_queue_exploration : outcome unit;
  block_pool_exploration : outcome unit;
  hash_map_analysis : outcome unit;
  fragmentation_simulation : outcome unit
}.

(** A diagnostic print of an [except] clause of [main] that has been done:
    [... skipped: {e}] or [... failed: {e}]. *)
Inductive notice : Type :=
| Skipped (what : string)
| Failed (what : string).

Record Progress : Type := mkProgress {
  results : list string;
  notices : list notice
}.

Definition append_result (msg : string) (st : Progress) : Progress :=
  {| results := results st ++ [msg]; notices := notices st |}.

Definition append_notice (n : notice) (st : Progress) : Progress :=
  {| results := results st; notices := notices st ++ [n] |}.

(** Lines 344-349. *)
Definition try_block_structure (out : console)
    (o : outcome (option Pool.Block)) (st : Progress) : io Progress :=
  try_except
    (result ← call o;
     mret (match result with
           | Some _ => append_result "✓ Block structure exploration completed" st
           | None => st
           end))
    (except_exception
       (_ ← print out;
        mret (append_notice (Failed "Block structure exploration") st))).

(** Lines 351-358. *)
Definition try_cuda_status (out : console) (o : outcome bool) (st : Progress)
  : io Progress :=
  try_except
    (cuda_ok ← call o;
     mret (if cuda_ok : bool
           then append_result "✓ CUDA available in PyTorch" st
           else append_result "⚠ CUDA not available in PyTorch" st))
    (except_exception
       (_ ← print out; mret (append_notice (Failed "CUDA check") st))).

(** Lines 360-390: the four blocks of the same shape. *)
Definition try_exploration (what done : string) (out : console)
    (o : outcome unit) (st : Progress) : io Progress :=
  try_except
    (_ ← call o; mret (append_result done st))
    (except_import_or_exception
       (_ ← print out; mret (append_notice (Skipped what) st))
       (_ ← print out; mret (append_notice (Failed what) st))).

(** The branch of the testing summary (lines 396-412). *)
Inductive summary : Type :=
| CompletedExplorations (n : nat)
| CouldNotRunTests.

Definition summarize (results : list string) : summary :=
  match results with
  | [] => CouldNotRunTests
  | _ :: _ => CompletedExplorations (length results)
  end.

(** The prints of the summary: under [if results:] the count, one line per
    result and six lines of advice (lines 397-405), else six lines
    (lines 407-412). *)
Definition print_summary (out : console) (results : list string) : io unit :=
  match results with
  | [] => prints out 6
  | _ :: _ =>
      _ ← print out;
      _ ← prints out (length results);
      prints out 6
  end.

Record Session : Type := mkSession {
  progress : Progress;
  shown : summary
}.

(** [main()] (lines 331-412). *)
Definition main (out : console) (calls : Calls) : outcome Session :=
  run_body (
    _ ← prints out 7;                                      (* lines 333-340 *)
    st ← try_block_structure out (block_structure calls) (mkProgress [] []);
    st ← try_cuda_status out (cuda_status calls) st;
    st ← try_exploration "Free block queue exploration"
           "✓ Free block queue exploration completed" out
           (free_block_queue_exploration calls) st;
    st ← try_exploration "Block pool exploration"
           "✓ Block pool exploration completed" out
           (block_pool_exploration calls) st;
    st ← try_exploration "Hash map analysis"
           "✓ Hash map analysis completed" out
           (hash_map_analysis calls) st;
    st ← try_exploration "Fragmentation simulation"
           "✓ Fragmentation scenario simulation completed" out
           (fragmentation_simulation calls) st;
    _ ← prints out 3;                                      (* lines 392-394 *)
    _ ← print_summary out (results st);
    mret {| progress := st; shown := summarize (results st) |}).

(** *** The script in an environment *)

(** The functions of the script that print. *)
Inductive printer : Type :=
| InMain
| InBlockStructure
| InCudaStatus
| InFreeBlockQueue
| InBlockPool
| InHashMap
| InFragmentation.

(** The calls of [main] in an environment given by its imports, by what
    stdout does with the prints of each function, and by what the bodies do
    once the imports have succeeded.  [explore_free_block_queue] and
    [explore_block_structure] import from [vllm.v1.core.kv_cache_utils],
    [explore_block_pool] and [simulate_fragmentation_scenario] from
    [vllm.v1.core.block_pool], [analyze_block_hash_to_block_map] from both. *)
Record Environment : Type := mkEnvironment {
  stdout : printer -> console;
  import_kv_cache_utils : outcome unit;
  import_block_pool : outcome unit;
  import_torch : outcome unit;
  torch_is_available : outcome bool;
  torch_cuda_version : outcome unit;
  torch_device_count : outcome unit;
  torch_device_name : outcome unit;
  free_block_queue_body : outcome unit;
  block_pool_body : outcome unit;
  hash_map_body : outcome unit;
  fragmentation_body : outcome unit
}.

Definition both_imports (first second : outcome unit) : outcome unit :=
  match first with
  | Returns _ => second
  | Raises c => Raises c
  end.

Definition calls_in (env : Environment) : Calls :=
  {| block_structure :=
       explore_block_structure (stdout env InBlockStructure)
         (import_kv_cache_utils env);
     cuda_status :=
       check_cuda_status (stdout env InCudaStatus) (import_torch env)
         (torch_is_available env) (torch_cuda_version env)
         (torch_device_count env) (torch_device_name env);
     free_block_queue_exploration :=
       guarded_exploration (stdout env InFreeBlockQueue)
         (import_kv_cache_utils env) (free_block_queue_body env);
     block_pool_exploration :=
       guarded_exploration (stdout env InBlockPool)
         (import_block_pool env) (block_pool_body env);
     hash_map_analysis :=
       guarded_exploration (stdout env InHashMap)
         (both_imports (import_block_pool env) (import_kv_cache_utils env))
         (hash_map_body env);
     fragmentation_simulation :=
       guarded_exploration (stdout env InFragmentation)
         (import_block_pool env) (fragmentation_body env) |}.

(** [main()] in an environment. *)
Definition main_in (env : Environment) : outcome Session :=
  main (stdout env InMain) (calls_in env).

(** Whether a call came back, whether it came back with a block, and whether
    it raised something that is not an [Exception]. *)
Definition returned {A : Type} (o : outcome A) : bool :=
  match o with
  | Returns _ => true
  | Raises _ => false
  end.

Definition gave_block (o : outcome (option Pool.Block)) : bool :=
  match o with
  | Returns (Some _) => true
  | _ => false
  end.

Definition raised_non_exception {A : Type} (o : outcome A) : bool :=
  match o with
  | Raises NonException => true
  | _ => false
  end.

Definition count_true (bs : list bool) : nat :=
  foldr (fun (b : bool) n => if b then S n else n) 0%nat bs.

(** For each call of [main], whether it adds a line to [results]. *)
Definition completions (calls : Calls) : list bool :=
  [gave_block (block_structure calls);
   returned (cuda_status calls);
   returned (free_block_queue_exploration calls);
   returned (block_pool_exploration calls);
   returned (hash_map_analysis calls);
   returned (fragmentation_simulation calls)].

(** For each call of [main], whether it raises past [except Exception]. *)
Definition escapes (calls : Calls) : list bool :=
  [raised_non_exception (block_structure calls);
   raised_non_exception (cuda_status calls);
   raised_non_exception (free_block_queue_exploration calls);
   raised_non_exception (block_pool_exploration calls);
   raised_non_exception (hash_map_analysis calls);
   raised_non_exception (fragmentation_simulation calls)].

(** A console that takes every print. *)
Definition prints_all (out : console) : Prop := forall k, out k = Returns tt.

(** One of the prints of the console raises an exception of class [c]. *)
Definition raised_by_print (out : console) (c : exc_class) : Prop :=
  exists j, out j = Raises c.

(** What holds after a piece of a body run from [n] prints: [Q] of its result
    and the prints done if it returns, [E] of the class if it raises. *)
Definition io_post {A : Type} (m : io A) (n : nat)
    (Q : A -> nat -> Prop) (E : exc_class -> Prop) : Prop :=
  match m n with
  | (Returns a, n') => Q a n'
  | (Raises c, _) => E c
  end.

End Script.

Module AnalyzerFacts.
Import Analyzer.

(** *** Built-ins *)

Lemma sorted_Sorted ids : Sorted Z.le (sorted ids).
Proof. apply (Sorted_merge_sort Z.le). Qed.

Lemma sorted_Permutation ids : sorted ids ≡ₚ ids.
Proof. apply merge_sort_Permutation. Qed.

Lemma sorted_length ids : length (sorted ids) = length ids.
Proof. by rewrite sorted_Permutation. Qed.

Lemma sorted_nil_iff ids : sorted ids = [] <-> ids = [].
Proof.
  split; intros H.
  - apply Permutation_nil_r. rewrite <- H. symmetry. apply sorted_Permutation.
  - by subst.
Qed.

Lemma last_item_Ok xs : xs <> [] -> exists a, last xs = Some a /\ last_item xs = Ok a.
Proof.
  intros Hne. apply last_is_Some in Hne as [a Ha].
  exists a. unfold last_item. by rewrite Ha.
Qed.

Lemma py_sum_acc xs n : fold_left Nat.add xs n = (n + sum_list xs)%nat.
Proof.
  revert n. induction xs as [|x xs IH]; intros n; simpl; [lia|].
  rewrite IH. unfold id. lia.
Qed.

Lemma py_sum_sum_list xs : py_sum xs = sum_list xs.
Proof. unfold py_sum. by rewrite py_sum_acc. Qed.

Lemma py_max_acc xs n : fold_left Nat.max xs n = (n `max` max_list xs)%nat.
Proof.
  revert n. induction xs as [|x xs IH]; intros n; simpl; [lia|].
  rewrite IH. unfold id. lia.
Qed.

Lemma py_max_max_list xs : xs <> [] -> py_max xs = Ok (max_list xs).
Proof.
  destruct xs as [|x xs]; [done|]. intros _. simpl.
  by rewrite py_max_acc.
Qed.

Lemma sum_list_lengths (rs : list (list Z)) :
  sum_list (map (@length Z) rs) = length (concat rs).
Proof.
  induction rs as [|r rs IH]; simpl; [done|].
  rewrite length_app, <- IH. done.
Qed.

(** *** The loop computes [group_runs] *)

Lemma attach_nil run : attach run [] = [run].
Proof. done. Qed.

Lemma attach_join run a y r rs :
  last run = Some a -> y = a + 1 ->
  attach run ((y :: r) :: rs) = (run ++ y :: r) :: rs.
Proof.
  intros Hl ->. unfold attach. rewrite Hl, Z.eqb_refl. done.
Qed.

Lemma attach_split run a y r rs :
  last run = Some a -> y <> a + 1 ->
  attach run ((y :: r) :: rs) = run :: (y :: r) :: rs.
Proof.
  intros Hl Hne. unfold attach. rewrite Hl.
  destruct (Z.eqb_spec y (a + 1)); [done|done].
Qed.

(** The runs of [b :: l] start with a run that starts with [b]. *)
Lemma group_runs_cons_head b l :
  exists r rs, group_runs (b :: l) = (b :: r) :: rs.
Proof.
  simpl. destruct (group_runs l) as [|[|y r] rs] eqn:E.
  - by exists [], [].
  - by exists [], ([] :: rs).
  - unfold attach. simpl. destruct (y =? b + 1); eauto.
Qed.

Lemma attach_snoc cur a b G :
  last cur = Some a -> b = a + 1 ->
  attach cur (attach [b] G) = attach (cur ++ [b]) G.
Proof.
  intros Hl Hb.
  assert (Hl' : last (cur ++ [b]) = Some b) by apply last_snoc.
  destruct G as [|[|y r] rs].
  - rewrite !attach_nil. rewrite (attach_join cur a b [] []); done.
  - assert (Hnil : forall X, attach X ([] :: rs) = X :: [] :: rs) by done.
    rewrite !Hnil. rewrite (attach_join cur a b [] _); done.
  - destruct (Z.eq_dec y (b + 1)) as [Hy|Hy].
    + rewrite (attach_join [b] b y r rs) by done.
      change ([b] ++ y :: r) with (b :: y :: r).
      rewrite (attach_join cur a b (y :: r) rs) by done.
      rewrite (attach_join (cur ++ [b]) b y r rs) by done.
      by rewrite <- app_assoc.
    + rewrite (attach_split [b] b y r rs) by done.
      rewrite (attach_join cur a b [] _) by done.
      rewrite (attach_split (cur ++ [b]) b y r rs) by done.
      done.
Qed.

Lemma run_loop_group_runs rest runs cur :
  cur <> [] ->
  exists R c, run_loop rest runs cur = Ok (runs ++ R, c)
              /\ R ++ [c] = attach cur (group_runs rest).
Proof.
  revert runs cur. induction rest as [|b rest IH]; intros runs cur Hne.
  - exists [], cur. simpl. by rewrite app_nil_r.
  - destruct (last_item_Ok cur Hne) as (a & Hl & Hli).
    cbn [run_loop]. rewrite Hli. cbn [mbind result_bind].
    destruct (Z.eqb_spec b (a + 1)) as [Hb|Hb].
    + destruct (IH runs (cur ++ [b])) as (R & c & Hrun & HR).
      { by destruct cur. }
      exists R, c. split; [done|].
      rewrite HR. cbn [group_runs]. by rewrite (attach_snoc cur a b).
    + destruct (IH (runs ++ [cur]) [b]) as (R & c & Hrun & HR); [done|].
      exists (cur :: R), c. split.
      * rewrite Hrun. by rewrite <- app_assoc.
      * destruct (group_runs_cons_head b rest) as (r & rs & Hg).
        rewrite Hg. rewrite (attach_split cur a b r rs) by done.
        simpl. f_equal. rewrite HR. exact Hg.
Qed.

Lemma find_runs_group_runs l : find_runs l = Ok (group_runs l).
Proof.
  destruct l as [|x rest]; [done|].
  unfold find_runs.
  destruct (run_loop_group_runs rest [] [x]) as (R & c & Hrun & HR); [done|].
  rewrite Hrun. simpl. by rewrite HR.
Qed.

(** *** [group_runs] yields the maximal runs, and nothing else does *)

Lemma attach_concat run G : concat (attach run G) = run ++ concat G.
Proof.
  unfold attach. destruct G as [|[|y r] rs]; [done|done|].
  destruct (last run) as [a|]; [|done].
  destruct (y =? a + 1); [|done].
  simpl. by rewrite <- app_assoc.
Qed.

Lemma group_runs_concat l : concat (group_runs l) = l.
Proof.
  induction l as [|x l IH]; [done|].
  simpl. rewrite attach_concat, IH. done.
Qed.

Lemma group_runs_nil_iff l : group_runs l = [] <-> l = [].
Proof.
  split; intros H; [|by subst].
  destruct l as [|b l]; [done|].
  destruct (group_runs_cons_head b l) as (r & rs & Hg). congruence.
Qed.

Lemma consecutive_nonempty r : consecutive r -> r <> [].
Proof. by destruct 1. Qed.

Lemma gapped_last r1 r1' rs :
  last r1' = last r1 -> gapped (r1 :: rs) -> gapped (r1' :: rs).
Proof.
  intros Hl Hg. inversion Hg as [|r|r r2 rs' Hgap Hrest]; subst.
  - constructor.
  - constructor; [|done]. intros a b Ha. apply Hgap. by rewrite <- Hl.
Qed.

Lemma gapped_tail r rs : gapped (r :: rs) -> gapped rs.
Proof. inversion 1; subst; [constructor|done]. Qed.

(** How the runs of [x :: l] arise from the runs of [l]. *)
Lemma group_runs_cons_cases x l :
  Forall consecutive (group_runs l) ->
  (group_runs l = [] /\ group_runs (x :: l) = [[x]])
  \/ (exists y r rs, group_runs l = (y :: r) :: rs /\ y = x + 1
        /\ group_runs (x :: l) = (x :: y :: r) :: rs)
  \/ (exists y r rs, group_runs l = (y :: r) :: rs /\ y <> x + 1
        /\ group_runs (x :: l) = [x] :: (y :: r) :: rs).
Proof.
  intros HF. cbn [group_runs].
  destruct (group_runs l) as [|[|y r] rs].
  - by left.
  - apply Forall_cons_1 in HF as [Hc _]. inversion Hc.
  - right. destruct (Z.eq_dec y (x + 1)) as [Hy|Hy].
    + left. exists y, r, rs. by rewrite (attach_join [x] x y r rs).
    + right. exists y, r, rs. by rewrite (attach_split [x] x y r rs).
Qed.

Lemma group_runs_consecutive l : Forall consecutive (group_runs l).
Proof.
  induction l as [|x l IH]; [constructor|].
  destruct (group_runs_cons_cases x l IH)
    as [[_ ->]|[(y & r & rs & Hg & Hy & ->)|(y & r & rs & Hg & Hy & ->)]].
  - repeat constructor.
  - rewrite Hg in IH. apply Forall_cons_1 in IH as [Hc Hrs].
    constructor; [|done]. by constructor.
  - rewrite Hg in IH. constructor; [constructor|done].
Qed.

Lemma group_runs_gapped l : gapped (group_runs l).
Proof.
  induction l as [|x l IH]; [constructor|].
  destruct (group_runs_cons_cases x l (group_runs_consecutive l))
    as [[_ ->]|[(y & r & rs & Hg & Hy & ->)|(y & r & rs & Hg & Hy & ->)]].
  - constructor.
  - rewrite Hg in IH. by apply (gapped_last (y :: r)).
  - rewrite Hg in IH. constructor; [|done].
    intros a b Ha Hb. simpl in Ha, Hb. congruence.
Qed.

Lemma group_runs_maximal l : maximal_runs (group_runs l) l.
Proof.
  split; [apply group_runs_concat|].
  split; [apply group_runs_consecutive|apply group_runs_gapped].
Qed.

Lemma maximal_runs_unique rs l : maximal_runs rs l -> rs = group_runs l.
Proof.
  revert rs. induction l as [|x l IH]; intros rs (Hcat & HF & Hgap).
  - destruct rs as [|r rs]; [done|].
    apply Forall_cons_1 in HF as [Hc _].
    destruct Hc; discriminate Hcat.
  - destruct rs as [|r rs]; [discriminate Hcat|].
    apply Forall_cons_1 in HF as [Hc HF].
    destruct Hc as [x0|x0 y r Hy Hc]; simpl in Hcat;
      injection Hcat as -> Hcat.
    + assert (Hrs : rs = group_runs l).
      { apply IH. split; [done|]. split; [done|]. by apply gapped_tail in Hgap. }
      cbn [group_runs]. rewrite <- Hrs.
      destruct rs as [|r2 rs]; [done|].
      apply Forall_cons_1 in HF as [Hc2 _].
      inversion Hgap as [| |? ? ? Hg12 _]; subst.
      destruct Hc2 as [y|y z r2 _ _].
      * rewrite (attach_split [x] x y [] rs); [done|done|]. by apply Hg12.
      * rewrite (attach_split [x] x y (z :: r2) rs); [done|done|]. by apply Hg12.
    + assert (Hrs : (y :: r) :: rs = group_runs l).
      { apply IH. split; [done|]. split; [by constructor|].
        by apply (gapped_last (x :: y :: r)). }
      cbn [group_runs]. rewrite <- Hrs.
      by rewrite (attach_join [x] x y r rs).
Qed.

(** *** The report, in closed form *)

Lemma true_div_Ok a b :
  b <> 0%nat ->
  true_div a b = Ok (inject_Z (Z.of_nat a) / inject_Z (Z.of_nat b))%Q.
Proof. by destruct b. Qed.

Lemma analyze_nil :
  analyze [] = Ok {| free_block_ids := []; runs := []; run_count := 0;
                     metrics := None |}.
Proof. reflexivity. Qed.

Lemma fragmentation_metrics_Ok fids G :
  fids <> [] -> G <> [] ->
  fragmentation_metrics fids G = Ok (metrics_of fids G).
Proof.
  intros Hf HG. unfold fragmentation_metrics.
  rewrite py_max_max_list by by destruct G.
  cbn [mbind result_bind].
  rewrite true_div_Ok by by destruct G.
  cbn [mbind result_bind].
  unfold external_frag_expr.
  destruct fids as [|b fids]; [done|]. cbn [frag_arm_taken].
  rewrite true_div_Ok by done. done.
Qed.

Lemma analyze_cons ids :
  ids <> [] ->
  analyze ids =
    Ok {| free_block_ids := sorted ids;
          runs := group_runs (sorted ids);
          run_count := length (group_runs (sorted ids));
          metrics := Some (metrics_of (sorted ids) (group_runs (sorted ids))) |}.
Proof.
  intros Hne. unfold analyze. rewrite find_runs_group_runs.
  cbn [mbind result_bind].
  assert (Hs : sorted ids <> []) by by rewrite sorted_nil_iff.
  assert (HG : group_runs (sorted ids) <> []) by by rewrite group_runs_nil_iff.
  destruct (group_runs (sorted ids)) as [|r rs] eqn:E; [done|].
  rewrite fragmentation_metrics_Ok by done. done.
Qed.

(** *** Run lengths *)

Lemma max_list_elem (xs : list nat) :
  xs <> [] -> max_list xs ∈ xs /\ forall x, x ∈ xs -> (x <= max_list xs)%nat.
Proof.
  intros Hne. split.
  - induction xs as [|x xs IH]; [done|].
    destruct xs as [|y xs].
    + simpl. unfold id. rewrite Nat.max_0_r. left.
    + assert (Hy : max_list (y :: xs) ∈ y :: xs) by by apply IH.
      change (max_list (x :: y :: xs)) with (x `max` max_list (y :: xs))%nat.
      destruct (Nat.max_spec x (max_list (y :: xs))) as [[_ ->]|[_ ->]];
        [by right|left].
  - intros x Hx. by apply max_list_elem_of_le.
Qed.

Lemma largest_run_spec (G : list (list Z)) :
  G <> [] ->
  (exists r, r ∈ G /\ length r = max_list (map (@length Z) G))
  /\ (forall r, r ∈ G -> (length r <= max_list (map (@length Z) G))%nat).
Proof.
  intros HG.
  destruct (max_list_elem (map (@length Z) G)) as [Hin Hle]; [by destruct G|].
  split.
  - apply (list_elem_of_fmap (@length Z)) in Hin as (r & Hr & Hin). eauto.
  - intros r Hr. apply Hle. by apply (list_elem_of_fmap_2 (@length Z)).
Qed.

Lemma Q_one_minus_self (n : nat) :
  n <> 0%nat ->
  (1 - inject_Z (Z.of_nat n) / inject_Z (Z.of_nat n) == 0)%Q.
Proof.
  intros Hn. unfold Qdiv. rewrite Qmult_inv_r; [reflexivity|].
  unfold Qeq. simpl. lia.
Qed.

(** *** Ids and the runs they fall in *)

Lemma in_run_exists (rs : list (list Z)) x :
  x ∈ concat rs -> exists i, in_run rs i x.
Proof.
  induction rs as [|r rs IH]; simpl; [by intros ?%elem_of_nil|].
  intros [Hx|Hx]%elem_of_app.
  - exists 0%nat, r. done.
  - destruct (IH Hx) as (i & r' & Hi & Hr'). exists (S i), r'. done.
Qed.

Lemma in_run_concat (rs : list (list Z)) i x : in_run rs i x -> x ∈ concat rs.
Proof.
  revert i. induction rs as [|r rs IH]; intros i (r' & Hi & Hx); [done|].
  simpl. apply elem_of_app. destruct i as [|i].
  - left. simpl in Hi. by injection Hi as ->.
  - right. apply (IH i). by exists r'.
Qed.

Lemma in_run_unique (rs : list (list Z)) i j x :
  NoDup (concat rs) -> in_run rs i x -> in_run rs j x -> i = j.
Proof.
  revert i j. induction rs as [|r rs IH]; intros i j Hnd Hi Hj.
  - by destruct Hi as (? & ? & _).
  - simpl in Hnd. apply NoDup_app in Hnd as (_ & Hdisj & Hnd).
    destruct i as [|i], j as [|j]; [done| | |f_equal; apply IH; try done].
    + exfalso. destruct Hi as (r1 & Hr1 & Hx1). injection Hr1 as ->.
      apply (Hdisj x Hx1). apply (in_run_concat rs j). exact Hj.
    + exfalso. destruct Hj as (r1 & Hr1 & Hx1). injection Hr1 as ->.
      apply (Hdisj x Hx1). apply (in_run_concat rs i). exact Hi.
Qed.

Lemma Sorted_lt_NoDup (l : list Z) : Sorted Z.lt l -> NoDup l.
Proof.
  intros Hs. apply Sorted_StronglySorted in Hs; [|intros ???; lia].
  induction Hs as [|x l Hs IH Hall]; constructor; [|done].
  intros Hx. rewrite Forall_forall in Hall.
  specialize (Hall x Hx). lia.
Qed.

Lemma consecutive_group_runs l : consecutive l -> group_runs l = [l].
Proof.
  intros Hc. symmetry. apply maximal_runs_unique.
  split; [simpl; by rewrite app_nil_r|].
  split; [by constructor|constructor].
Qed.

(** *** The analysis as a whole *)

(** C2. For every list of free block ids the analysis returns a report (it
    raises nothing) whose ids are the input sorted ascending, whose runs are
    the one partition of the sorted ids into maximal runs of consecutive
    integers, whose run count is the number of these runs, and whose largest
    run, reported whenever there is a free block, is the length of a longest
    run. *)
Theorem analyze_reports_maximal_runs (ids : list Z) :
  exists rep,
    analyze ids = Ok rep
    /\ Sorted Z.le (free_block_ids rep) /\ free_block_ids rep ≡ₚ ids
    /\ maximal_runs (runs rep) (free_block_ids rep)
    /\ (forall rs, maximal_runs rs (free_block_ids rep) -> rs = runs rep)
    /\ run_count rep = length (runs rep)
    /\ match metrics rep with
       | None => ids = []
       | Some m =>
           ids <> []
           /\ number_of_runs m = length (runs rep)
           /\ (exists r, r ∈ runs rep /\ length r = largest_run m)
           /\ (forall r, r ∈ runs rep -> (length r <= largest_run m)%nat)
       end.
Proof.
  destruct ids as [|b ids].
  - eexists. split; [apply analyze_nil|]. cbn.
    split; [constructor|]. split; [done|].
    split; [apply (group_runs_maximal [])|].
    split; [intros rs Hrs; apply (maximal_runs_unique rs [] Hrs)|done].
  - eexists. split; [by apply analyze_cons|]. cbn [free_block_ids runs run_count metrics].
    split; [apply sorted_Sorted|]. split; [apply sorted_Permutation|].
    split; [apply group_runs_maximal|].
    split; [intros rs; apply maximal_runs_unique|]. split; [done|].
    split; [done|]. split; [done|].
    apply largest_run_spec. rewrite group_runs_nil_iff, sorted_nil_iff. done.
Qed.

(** C3, the part the code does not do: with no free block at all the analysis
    reports no metrics, hence no ratio that could equal 0. *)
Lemma external_frag_absent_without_free_blocks :
  exists rep,
    analyze [] = Ok rep /\ metrics rep = None
    /\ ~ (exists m, metrics rep = Some m /\ (external_frag m == 0)%Q).
Proof.
  eexists. split; [apply analyze_nil|]. split; [done|].
  intros (m & Hm & _). discriminate Hm.
Qed.

(** C3, as the code has it: for every non-empty list of free block ids the
    reported ratio is 1 - largest_run / total_free, where total_free is the
    number of ids and largest_run the length of a longest run, and it is 0
    whenever the sorted ids form one contiguous run. *)
Theorem external_frag_formula (ids : list Z) :
  ids <> [] ->
  exists rep m,
    analyze ids = Ok rep /\ metrics rep = Some m
    /\ total_free m = length ids
    /\ largest_run m = max_list (map (@length Z) (runs rep))
    /\ external_frag m
       = (1 - inject_Z (Z.of_nat (largest_run m))
              / inject_Z (Z.of_nat (total_free m)))%Q
    /\ (consecutive (free_block_ids rep) -> (external_frag m == 0)%Q).
Proof.
  intros Hne. eexists _, _. split; [by apply analyze_cons|].
  cbn [free_block_ids runs metrics]. split; [done|].
  unfold metrics_of. cbn [total_free largest_run external_frag].
  split; [apply sorted_length|]. split; [done|]. split; [done|].
  intros Hc. rewrite (consecutive_group_runs _ Hc).
  change (max_list (map (@length Z) [sorted ids])) with (length (sorted ids) `max` 0)%nat.
  rewrite Nat.max_0_r. apply Q_one_minus_self.
  rewrite sorted_length. by destruct ids.
Qed.

Lemma external_frag_formula_witness :
  [5; 4; 6] <> []
  /\ exists rep m,
       analyze [5; 4; 6] = Ok rep /\ metrics rep = Some m
       /\ (external_frag m == 0)%Q.
Proof.
  split; [discriminate|].
  destruct (external_frag_formula [5; 4; 6]) as (rep & m & Ha & Hm & _ & _ & _ & H0);
    [discriminate|].
  exists rep, m. split; [exact Ha|]. split; [exact Hm|].
  apply H0. vm_compute in Ha. injection Ha as <-. cbn.
  repeat constructor.
Defined.

(** C8. For every non-empty list of free block ids the reported mean run size
    is the sum of the run lengths divided by the number of runs, and that sum
    is the number of free blocks. *)
Theorem average_run_formula (ids : list Z) :
  ids <> [] ->
  exists rep m,
    analyze ids = Ok rep /\ metrics rep = Some m
    /\ number_of_runs m = length (runs rep) /\ number_of_runs m <> 0%nat
    /\ average_run m
       = (inject_Z (Z.of_nat (sum_list (map (@length Z) (runs rep))))
          / inject_Z (Z.of_nat (number_of_runs m)))%Q
    /\ sum_list (map (@length Z) (runs rep)) = length ids
    /\ average_run m
       = (inject_Z (Z.of_nat (length ids))
          / inject_Z (Z.of_nat (number_of_runs m)))%Q.
Proof.
  intros Hne. eexists _, _. split; [by apply analyze_cons|].
  cbn [runs metrics]. split; [done|].
  unfold metrics_of. cbn [number_of_runs average_run].
  assert (Hsum : sum_list (map (@length Z) (group_runs (sorted ids))) = length ids).
  { by rewrite sum_list_lengths, group_runs_concat, sorted_length. }
  split; [done|]. split.
  { intros H0%length_zero_iff_nil. by rewrite group_runs_nil_iff, sorted_nil_iff in H0. }
  rewrite py_sum_sum_list. split; [done|]. split; [done|]. by rewrite Hsum.
Qed.

Lemma average_run_formula_witness :
  [3; 1; 2; 7; 8; 10] <> []
  /\ exists rep m,
       analyze [3; 1; 2; 7; 8; 10] = Ok rep /\ metrics rep = Some m
       /\ number_of_runs m = 3%nat
       /\ average_run m = (inject_Z 6 / inject_Z 3)%Q.
Proof.
  split; [discriminate|].
  destruct (average_run_formula [3; 1; 2; 7; 8; 10])
    as (rep & m & Ha & Hm & Hn & _ & _ & _ & Havg); [discriminate|].
  exists rep, m. split; [exact Ha|]. split; [exact Hm|].
  assert (Hn3 : number_of_runs m = 3%nat).
  { rewrite Hn. vm_compute in Ha. by injection Ha as <-. }
  split; [exact Hn3|]. rewrite Havg, Hn3. reflexivity.
Defined.

(** C10. Whenever the metrics are computed, that is on the branch where the
    list of runs is not empty, the list of free block ids is not empty either:
    the conditional on line 249 takes its quotient arm, the division is
    defined, and the arm returning 0 is never taken. *)
Theorem external_frag_zero_arm_unreachable (ids : list Z) (rep : Report) (m : Metrics) :
  analyze ids = Ok rep -> metrics rep = Some m ->
  runs rep <> []
  /\ free_block_ids rep <> []
  /\ frag_arm_taken (free_block_ids rep) = QuotientArm
  /\ true_div (largest_run m) (length (free_block_ids rep))
     = Ok (inject_Z (Z.of_nat (largest_run m))
           / inject_Z (Z.of_nat (length (free_block_ids rep))))%Q
  /\ external_frag_expr (largest_run m) (free_block_ids rep)
     = Ok (external_frag m).
Proof.
  intros Ha Hm. destruct ids as [|b ids].
  - rewrite analyze_nil in Ha. injection Ha as <-. discriminate Hm.
  - rewrite analyze_cons in Ha by done. injection Ha as <-.
    cbn [metrics] in Hm. injection Hm as <-.
    cbn [runs free_block_ids]. unfold metrics_of. cbn [largest_run external_frag].
    assert (Hs : sorted (b :: ids) <> []) by by rewrite sorted_nil_iff.
    split; [by rewrite group_runs_nil_iff|]. split; [done|].
    unfold external_frag_expr.
    destruct (sorted (b :: ids)) as [|c fids] eqn:E; [done|].
    cbn [frag_arm_taken]. split; [done|].
    rewrite true_div_Ok by done. done.
Qed.

Lemma external_frag_zero_arm_unreachable_witness :
  exists rep m,
    analyze [3; 1; 2; 7] = Ok rep /\ metrics rep = Some m
    /\ frag_arm_taken (free_block_ids rep) = QuotientArm
    /\ external_frag_expr (largest_run m) (free_block_ids rep)
       = Ok (external_frag m).
Proof.
  eexists _, _. split; [vm_compute; reflexivity|]. split; [reflexivity|].
  refine (let H := external_frag_zero_arm_unreachable [3; 1; 2; 7] _ _
                     ltac:(vm_compute; reflexivity) eq_refl in _).
  destruct H as (_ & _ & Harm & _ & Hexpr). split; [exact Harm|exact Hexpr].
Defined.

End AnalyzerFacts.

Module PoolFacts.
Import Pool Pool.BlockPool.

(** *** The prefix-cache index *)

Lemma insert_mapped (key : Key) (b : Block) (idx : gmap Key nat) :
  is_Some (idx !! key) -> PrefixCacheIndex.insert key b idx = idx.
Proof. intros [v Hv]. unfold PrefixCacheIndex.insert. by rewrite Hv. Qed.

Lemma insert_is_Some (key : Key) (b : Block) (idx : gmap Key nat) :
  is_Some (PrefixCacheIndex.insert key b idx !! key).
Proof.
  unfold PrefixCacheIndex.insert. destruct (idx !! key) as [v|] eqn:E.
  - by rewrite E.
  - rewrite lookup_insert_eq. by eexists.
Qed.

(** C6. For every index, key and two blocks with distinct ids: once the first
    block is inserted under the key, inserting the second under the same key
    leaves the index as it is, so neither its size nor the result of lookup on
    the key changes; when the key was unmapped before the first insert, lookup
    returns the id of the block inserted first. *)
Theorem insert_same_key_first_wins
    (idx : gmap Key nat) (key : Key) (b1 b2 : Block) :
  id b1 <> id b2 ->
  let idx1 := PrefixCacheIndex.insert key b1 idx in
  let idx2 := PrefixCacheIndex.insert key b2 idx1 in
  PrefixCacheIndex.size idx2 = PrefixCacheIndex.size idx1
  /\ PrefixCacheIndex.lookup key idx2 = PrefixCacheIndex.lookup key idx1
  /\ (PrefixCacheIndex.lookup key idx = None ->
      PrefixCacheIndex.lookup key idx2 = Some (id b1)
      /\ PrefixCacheIndex.lookup key idx2 <> Some (id b2)).
Proof.
  intros Hne idx1 idx2.
  assert (H12 : idx2 = idx1) by apply insert_mapped, insert_is_Some.
  rewrite H12. split; [done|]. split; [done|].
  unfold PrefixCacheIndex.lookup. intros Hfresh.
  assert (H1 : idx1 !! key = Some (id b1)).
  { unfold idx1, PrefixCacheIndex.insert. rewrite Hfresh. apply lookup_insert_eq. }
  rewrite H1. split; [done|]. congruence.
Qed.

Lemma insert_same_key_first_wins_witness :
  let key : Key := ("hash_0"%string, 0) in
  let idx1 := PrefixCacheIndex.insert key (mkBlock 0 0 None false) ∅ in
  let idx2 := PrefixCacheIndex.insert key (mkBlock 100 0 None false) idx1 in
  PrefixCacheIndex.size idx2 = PrefixCacheIndex.size idx1
  /\ PrefixCacheIndex.lookup key idx2 = Some 0%nat.
Proof.
  intros key idx1 idx2.
  destruct (insert_same_key_first_wins ∅ key (mkBlock 0 0 None false)
              (mkBlock 100 0 None false)) as (Hsize & _ & Hfirst).
  { simpl. lia. }
  split; [exact Hsize|]. apply Hfirst. reflexivity.
Defined.

(** *** Failed allocation *)

Lemma evict_queue b p : free_block_queue (evict b p) = free_block_queue p.
Proof.
  unfold evict. destruct (blocks p !! b) as [blk|]; [|done].
  by destruct (content_hash blk).
Qed.

Lemma evict_capacity b p : capacity (evict b p) = capacity p.
Proof.
  unfold evict. destruct (blocks p !! b) as [blk|]; [|done].
  by destruct (content_hash blk).
Qed.

Lemma push_front_all popped q :
  foldr FreeBlockQueue.push_front q popped
  = {| chain := popped ++ chain q; num_free := length popped + num_free q |}.
Proof.
  induction popped as [|b popped IH]; simpl.
  - by destruct q.
  - rewrite IH. done.
Qed.

(** Asking for more blocks than the queue holds pops every free block and then
    stops on the empty queue. *)
Lemma allocate_loop_exhausts n p popped :
  counter_tracks_chain (free_block_queue p) ->
  (length (chain (free_block_queue p)) < n)%nat ->
  exists pf,
    allocate_loop n p popped
    = Failed EmptyQueue pf (popped ++ chain (free_block_queue p))
    /\ free_block_queue pf = {| chain := []; num_free := 0 |}.
Proof.
  revert p popped. induction n as [|n IH]; intros p popped Hc Hlt; [lia|].
  unfold counter_tracks_chain in Hc. cbn [allocate_loop].
  unfold FreeBlockQueue.take_front.
  destruct (free_block_queue p) as [ch nf] eqn:Eq. cbn [chain num_free] in *.
  destruct ch as [|b rest]; cbn [length] in *; subst nf.
  - exists p. by rewrite app_nil_r.
  - set (q := {| chain := rest; num_free := length rest |}).
    set (p1 := evict b (with_queue q p)).
    set (p2 := with_blocks (alter (with_ref_count 1) b (blocks p1)) p1).
    assert (Hq : free_block_queue p2 = q).
    { unfold p2, p1. cbn [with_blocks free_block_queue]. by rewrite evict_queue. }
    destruct (IH p2 (popped ++ [b])) as (pf & Hrun & Hpf).
    + by rewrite Hq.
    + rewrite Hq. cbn [chain q]. lia.
    + exists pf. rewrite Hrun, Hq. cbn [chain q].
      by rewrite <- app_assoc.
Qed.

Lemma allocate_exhausted n p :
  counter_tracks_chain (free_block_queue p) ->
  (length (chain (free_block_queue p)) < n)%nat ->
  allocate n p = (Raise InsufficientCapacity, p).
Proof.
  intros Hc Hlen.
  destruct (allocate_loop_exhausts n p [] Hc Hlen) as (pf & Hrun & Hpf).
  unfold allocate. rewrite Hrun, Hpf, push_front_all. cbn [chain num_free app].
  rewrite app_nil_r, Nat.add_0_r. f_equal.
  unfold counter_tracks_chain in Hc.
  destruct p as [c h bs [ch nf] idx nb]. cbn in *. by subst nf.
Qed.

(** C5. In every pool whose free-queue counter is the length of its chain,
    asking for more blocks than are free raises InsufficientCapacity and
    returns the pool of before the call: the failed attempt has popped every
    free block, and they are back at the front of the queue in their original
    order, so the snapshot of the queue, free_count, the blocks and the index
    are unchanged. *)
Theorem allocate_beyond_free_count (p : BlockPool) (n : nat) :
  counter_tracks_chain (free_block_queue p) ->
  (free_count p < n)%nat ->
  allocate n p = (Raise InsufficientCapacity, p)
  /\ (exists pf popped,
        allocate_loop n p [] = Failed EmptyQueue pf popped
        /\ popped = FreeBlockQueue.snapshot (free_block_queue p)
        /\ FreeBlockQueue.snapshot (free_block_queue (allocate n p).2)
           = popped ++ FreeBlockQueue.snapshot (free_block_queue pf))
  /\ free_count (allocate n p).2 = free_count p.
Proof.
  intros Hc Hlt.
  assert (Hlen : (length (chain (free_block_queue p)) < n)%nat).
  { unfold free_count, FreeBlockQueue.size in Hlt. by rewrite <- Hc. }
  destruct (allocate_loop_exhausts n p [] Hc Hlen) as (pf & Hrun & Hpf).
  assert (Hall := allocate_exhausted n p Hc Hlen).
  split; [exact Hall|]. split.
  - exists pf, (chain (free_block_queue p)). split; [exact Hrun|].
    split; [done|]. rewrite Hall, Hpf. unfold FreeBlockQueue.snapshot.
    cbn. by rewrite app_nil_r.
  - by rewrite Hall.
Qed.

Lemma allocate_beyond_free_count_witness :
  let p := (allocate 3 (new 5 16)).2 in
  free_count p = 2%nat /\ allocate 4 p = (Raise InsufficientCapacity, p).
Proof.
  intros p. split; [reflexivity|].
  apply (allocate_beyond_free_count p 4); [reflexivity|vm_compute; lia].
Defined.

(** *** Double free *)

Lemma release_unreferenced b p blk :
  blocks p !! b = Some blk -> ref_count blk <= 0 ->
  release [b] p = (Raise DoubleFreeError, p).
Proof.
  intros Hb Hrc. unfold release, release_loop, release_one. rewrite Hb.
  destruct (Z.leb_spec (ref_count blk) 0); [done|lia].
Qed.

(** C7. When a block has just been released and its ref_count is 0, releasing
    it again raises DoubleFreeError: the call returns that error, not a
    success, and changes nothing. *)
Theorem release_twice_raises (p p1 : BlockPool) (b : nat) :
  release [b] p = (Ok tt, p1) ->
  ref_count_of b p1 = Some 0 ->
  release [b] p1 = (Raise DoubleFreeError, p1)
  /\ (release [b] p1).1 <> Ok tt.
Proof.
  intros _ Hrc. unfold ref_count_of in Hrc.
  destruct (blocks p1 !! b) as [blk|] eqn:Hb; [|done].
  injection Hrc as Hrc.
  rewrite (release_unreferenced b p1 blk Hb) by lia. done.
Qed.

Lemma release_twice_raises_witness :
  let p := (allocate 2 (new 4 16)).2 in
  let p1 := (release [1%nat] p).2 in
  release [1%nat] p = (Ok tt, p1)
  /\ ref_count_of 1 p1 = Some 0
  /\ release [1%nat] p1 = (Raise DoubleFreeError, p1).
Proof.
  intros p p1.
  assert (H1 : release [1%nat] p = (Ok tt, p1)) by (vm_compute; reflexivity).
  assert (H2 : ref_count_of 1 p1 = Some 0) by (vm_compute; reflexivity).
  split; [exact H1|]. split; [exact H2|].
  exact (proj1 (release_twice_raises p p1 1%nat H1 H2)).
Defined.

(** *** Well-formed pools count their blocks *)

Lemma wf_block_id p b blk : wf p -> blocks p !! b = Some blk -> id blk = b.
Proof.
  intros Hwf Hb.
  assert (H : (id <$> blocks p) !! b = Some (id blk)).
  { by rewrite list_lookup_fmap, Hb. }
  rewrite (wf_ids p Hwf) in H. apply lookup_seq in H as [-> _]. done.
Qed.

Lemma wf_length p : wf p -> length (blocks p) = capacity p.
Proof.
  intros Hwf. rewrite <- (length_fmap id), (wf_ids p Hwf). apply length_seq.
Qed.

Lemma count_zero_positive (bs : list Block) :
  Forall (fun b => 0 <= ref_count b) bs ->
  let unreferenced := filter (fun b => ref_count b = 0) bs in
  let referenced := filter (fun b => 0 < ref_count b) bs in
  (length unreferenced + length referenced)%nat = length bs.
Proof.
  induction 1 as [|b bs Hb _ IH]; [done|]. cbn zeta in *.
  rewrite !filter_cons.
  destruct (decide (ref_count b = 0)), (decide (0 < ref_count b)); simpl; lia.
Qed.

Lemma NoDup_ids_filter (P : Block -> Prop) `{!forall b, Decision (P b)}
    (bs : list Block) :
  NoDup (id <$> bs) -> NoDup (id <$> filter P bs).
Proof.
  induction bs as [|b bs IH]; [done|].
  rewrite fmap_cons, NoDup_cons. intros [Hb Hnd].
  rewrite filter_cons. destruct (decide (P b)); [|by apply IH].
  rewrite fmap_cons, NoDup_cons. split; [|by apply IH].
  intros (b' & Hid & [_ Hin]%list_elem_of_filter)%list_elem_of_fmap.
  apply Hb. rewrite Hid. by apply list_elem_of_fmap_2.
Qed.

Lemma wf_chain_unreferenced p :
  wf p ->
  chain (free_block_queue p) ≡ₚ id <$> filter (fun b => ref_count b = 0) (blocks p).
Proof.
  intros Hwf. apply NoDup_Permutation.
  - apply (wf_nodup p Hwf).
  - apply NoDup_ids_filter. rewrite (wf_ids p Hwf). apply NoDup_seq.
  - intros x. rewrite (wf_free p Hwf). unfold ref_count_of.
    rewrite list_elem_of_fmap. split.
    + destruct (blocks p !! x) as [blk|] eqn:Hx; [|done].
      intros [= Hrc]. exists blk. split.
      * symmetry. by apply (wf_block_id p).
      * apply list_elem_of_filter. split; [done|].
        by apply (list_elem_of_lookup_2 _ x).
    + intros (blk & -> & [Hrc Hin]%list_elem_of_filter).
      apply list_elem_of_lookup_1 in Hin as [i Hi].
      rewrite (wf_block_id p i blk Hwf Hi), Hi. simpl. by rewrite Hrc.
Qed.

(** In a well-formed pool the free blocks and the referenced blocks make up
    the capacity. *)
Lemma wf_count p : wf p -> (free_count p + referenced_count p)%nat = capacity p.
Proof.
  intros Hwf. unfold free_count, FreeBlockQueue.size, referenced_count.
  rewrite (wf_counter p Hwf), (wf_chain_unreferenced p Hwf), length_fmap.
  rewrite count_zero_positive; [by apply wf_length|].
  apply Forall_lookup_2. intros i blk Hi.
  apply (wf_nonneg p Hwf i). unfold ref_count_of. by rewrite Hi.
Qed.

(** *** Operations keep pools well-formed *)

Lemma new_wf capacity hash_block_size : wf (new capacity hash_block_size).
Proof.
  assert (Hids : forall l : list nat,
             id <$> ((fun i => mkBlock i 0 None false) <$> l) = l).
  { intros l. rewrite <- list_fmap_compose. apply list_fmap_id. }
  assert (Hrc : forall b, ref_count_of b (new capacity hash_block_size) = Some 0
                          <-> (b < capacity)%nat).
  { intros b. unfold ref_count_of, new. cbn [blocks].
    rewrite list_lookup_fmap. destruct (decide (b < capacity)%nat) as [Hlt|Hge].
    - by rewrite lookup_seq_lt.
    - rewrite lookup_seq_ge by lia. done. }
  split.
  - apply Hids.
  - intros b v Hb. unfold ref_count_of, new in Hb. cbn [blocks] in Hb.
    rewrite list_lookup_fmap in Hb.
    destruct (seq 0 capacity !! b); simpl in Hb; [|done]. injection Hb as <-. done.
  - unfold counter_tracks_chain, new, FreeBlockQueue.construct. cbn.
    by rewrite !length_fmap.
  - unfold new, FreeBlockQueue.construct. cbn. rewrite Hids. apply NoDup_seq.
  - intros b. rewrite Hrc. unfold new, FreeBlockQueue.construct. cbn.
    rewrite Hids, elem_of_seq. lia.
Qed.

Lemma ids_alter (f : Block -> Block) b (bs : list Block) :
  (forall x, id (f x) = id x) -> id <$> alter f b bs = id <$> bs.
Proof.
  intros Hf. rewrite (list_fmap_alter id f (fun i => i)).
  - by apply list_alter_id.
  - by apply Forall_forall.
Qed.

Lemma ref_count_of_alter p b v x :
  is_Some (blocks p !! b) ->
  ref_count_of x (with_blocks (alter (with_ref_count v) b (blocks p)) p)
  = if decide (x = b) then Some v else ref_count_of x p.
Proof.
  intros [blk Hb]. unfold ref_count_of. cbn [blocks with_blocks].
  destruct (decide (x = b)) as [->|Hne].
  - by rewrite list_lookup_alter_eq, Hb.
  - by rewrite list_lookup_alter_ne.
Qed.

Lemma evict_ids b p : id <$> blocks (evict b p) = id <$> blocks p.
Proof.
  unfold evict. destruct (blocks p !! b) as [blk|]; [|done].
  destruct (content_hash blk); [|done]. cbn. by apply ids_alter.
Qed.

Lemma evict_ref_count_of b p x : ref_count_of x (evict b p) = ref_count_of x p.
Proof.
  unfold evict. destruct (blocks p !! b) as [blk|] eqn:Hb; [|done].
  destruct (content_hash blk); [|done]. unfold ref_count_of. cbn.
  destruct (decide (b = x)) as [->|Hne].
  - rewrite list_lookup_alter_eq. by destruct (blocks p !! x).
  - by rewrite list_lookup_alter_ne.
Qed.

Lemma ref_count_of_is_Some b p v :
  ref_count_of b p = Some v -> is_Some (blocks p !! b).
Proof. unfold ref_count_of. destruct (blocks p !! b); [eauto|done]. Qed.

(** One block [b] gets the count [v]; the queue follows: [b] is in the new
    chain exactly when [v = 0], the other blocks stay where they were. *)
Lemma wf_update (p p' : BlockPool) (b : nat) (v : Z) :
  wf p ->
  capacity p' = capacity p ->
  id <$> blocks p' = id <$> blocks p ->
  (forall x, ref_count_of x p'
             = if decide (x = b) then Some v else ref_count_of x p) ->
  0 <= v ->
  counter_tracks_chain (free_block_queue p') ->
  NoDup (chain (free_block_queue p')) ->
  (forall x, x ∈ chain (free_block_queue p')
             <-> if decide (x = b) then v = 0
                 else x ∈ chain (free_block_queue p)) ->
  wf p'.
Proof.
  intros Hwf Hcap Hids Hrc Hv Hcnt Hnd Hch. split; [|  |done|done|].
  - rewrite Hids, Hcap. apply (wf_ids p Hwf).
  - intros x w. rewrite Hrc. destruct (decide (x = b)).
    + by intros [= <-].
    + apply (wf_nonneg p Hwf).
  - intros x. rewrite Hch, Hrc. destruct (decide (x = b)).
    + split; [by intros ->|by intros [= ->]].
    + apply (wf_free p Hwf).
Qed.

(** The pool after one round of the allocation loop. *)
Lemma allocate_round_wf p b rest :
  wf p -> chain (free_block_queue p) = b :: rest ->
  let q := {| chain := rest; num_free := length rest |} in
  let p1 := evict b (with_queue q p) in
  let p2 := with_blocks (alter (with_ref_count 1) b (blocks p1)) p1 in
  wf p2 /\ free_block_queue p2 = q.
Proof.
  intros Hwf Hch q p1 p2.
  assert (Hq : free_block_queue p2 = q).
  { unfold p2, p1. cbn [with_blocks free_block_queue]. by rewrite evict_queue. }
  split; [|done].
  assert (Hb0 : ref_count_of b p = Some 0).
  { apply (wf_free p Hwf). rewrite Hch. left. }
  assert (Hnd := wf_nodup p Hwf). rewrite Hch in Hnd.
  apply NoDup_cons in Hnd as [Hnotin Hnd].
  apply (wf_update p p2 b 1); try done.
  - unfold p2, p1. cbn [with_blocks capacity]. by rewrite evict_capacity.
  - unfold p2. cbn [with_blocks blocks]. rewrite ids_alter by done.
    unfold p1. by rewrite evict_ids.
  - intros x. unfold p2. rewrite ref_count_of_alter.
    + destruct (decide (x = b)); [done|]. unfold p1.
      by rewrite evict_ref_count_of.
    + apply (ref_count_of_is_Some b p1 0). unfold p1.
      by rewrite evict_ref_count_of.
  - by rewrite Hq.
  - by rewrite Hq.
  - intros x. rewrite Hq, Hch. cbn [chain q].
    destruct (decide (x = b)) as [->|Hne].
    + split; [done|lia].
    + rewrite elem_of_cons. tauto.
Qed.

(** Asking for no more than is free succeeds: the blocks handed out are the
    first [n] of the queue, in queue order, and the rest stays queued. *)
Lemma allocate_loop_succeeds n p popped :
  wf p -> (n <= length (chain (free_block_queue p)))%nat ->
  exists p',
    allocate_loop n p popped
    = Done p' (popped ++ take n (chain (free_block_queue p)))
    /\ wf p'
    /\ chain (free_block_queue p') = drop n (chain (free_block_queue p)).
Proof.
  revert p popped. induction n as [|n IH]; intros p popped Hwf Hle.
  - exists p. cbn. by rewrite app_nil_r.
  - assert (Hcnt := wf_counter p Hwf). unfold counter_tracks_chain in Hcnt.
    destruct (chain (free_block_queue p)) as [|b rest] eqn:Hch;
      cbn [length] in *; [lia|].
    destruct (allocate_round_wf p b rest Hwf Hch) as [Hwf2 Hq2].
    cbn [allocate_loop]. unfold FreeBlockQueue.take_front.
    rewrite Hcnt, Hch.
    destruct (IH _ (popped ++ [b]) Hwf2) as (p' & Hrun & Hwf' & Hch').
    { rewrite Hq2. cbn. lia. }
    exists p'. rewrite Hrun, Hq2. cbn [chain take drop].
    split; [by rewrite <- app_assoc|]. split; [done|]. by rewrite Hch', Hq2.
Qed.

Lemma allocate_wf n p : wf p -> wf (allocate n p).2.
Proof.
  intros Hwf.
  destruct (le_lt_dec n (length (chain (free_block_queue p)))) as [Hle|Hlt].
  - destruct (allocate_loop_succeeds n p [] Hwf Hle) as (p' & Hrun & Hwf' & _).
    unfold allocate. by rewrite Hrun.
  - rewrite (allocate_exhausted n p); [done| |done]. apply (wf_counter p Hwf).
Qed.

Lemma held_ref_count b p :
  held b p = true <-> exists v, ref_count_of b p = Some v /\ 0 < v.
Proof.
  unfold held, ref_count_of. destruct (blocks p !! b) as [blk|]; simpl.
  - rewrite bool_decide_eq_true. split; [eauto|]. by intros (v & [= <-] & Hv).
  - split; [done|]. by intros (v & [=] & _).
Qed.

(** Bumping the count of a block leaves the queue alone, which is right as
    long as the count does not end at 0. *)
Lemma bump_wf p b v :
  wf p -> is_Some (blocks p !! b) -> 0 < v ->
  (b ∉ chain (free_block_queue p)) ->
  wf (with_blocks (alter (with_ref_count v) b (blocks p)) p).
Proof.
  intros Hwf Hb Hv Hnotin.
  apply (wf_update p _ b v); try done.
  - cbn. by apply ids_alter.
  - intros x. by apply ref_count_of_alter.
  - lia.
  - apply (wf_counter p Hwf).
  - apply (wf_nodup p Hwf).
  - intros x. cbn. destruct (decide (x = b)) as [->|]; [|done].
    split; [done|lia].
Qed.

Lemma retain_wf b p : wf p -> held b p = true -> wf (retain b p).2.
Proof.
  intros Hwf (v & Hrc & Hv)%held_ref_count. unfold retain.
  destruct (blocks p !! b) as [blk|] eqn:Hb; [|done]. cbn [snd].
  assert (Hblk : ref_count blk = v).
  { unfold ref_count_of in Hrc. rewrite Hb in Hrc. by injection Hrc. }
  apply bump_wf; [done|by rewrite Hb|lia|].
  rewrite (wf_free p Hwf), Hrc. intros [=]. lia.
Qed.

Lemma release_one_wf b p p' : wf p -> release_one b p = Ok p' -> wf p'.
Proof.
  intros Hwf. unfold release_one.
  destruct (blocks p !! b) as [blk|] eqn:Hb; [|done].
  destruct (Z.leb_spec (ref_count blk) 0) as [|Hpos]; [done|].
  assert (Hrc : ref_count_of b p = Some (ref_count blk)).
  { unfold ref_count_of. by rewrite Hb. }
  assert (Hnotin : b ∉ chain (free_block_queue p)).
  { rewrite (wf_free p Hwf), Hrc. intros [=]. lia. }
  cbn [with_ref_count ref_count].
  destruct (Z.eqb_spec (ref_count blk - 1) 0) as [H0|Hne].
  - unfold FreeBlockQueue.push_back. cbn [with_ref_count ref_count id
      with_blocks free_block_queue].
    rewrite (wf_block_id p b blk Hwf Hb).
    rewrite bool_decide_eq_true_2 by done.
    cbn [mbind result_bind]. intros [= <-].
    apply (wf_update p _ b (ref_count blk - 1)); try done.
    + cbn. by apply ids_alter.
    + intros x. rewrite <- (ref_count_of_alter p b (ref_count blk - 1) x); [done|].
      by rewrite Hb.
    + lia.
    + unfold counter_tracks_chain. cbn. rewrite length_app. cbn.
      rewrite (wf_counter p Hwf). lia.
    + cbn. apply NoDup_app. split; [apply (wf_nodup p Hwf)|].
      split; [|apply NoDup_singleton].
      intros x Hx ->%list_elem_of_singleton. done.
    + intros x. cbn. rewrite elem_of_app, list_elem_of_singleton.
      destruct (decide (x = b)) as [->|]; tauto.
  - intros [= <-].
    apply (wf_update p _ b (ref_count blk - 1)); try done.
    + cbn. by apply ids_alter.
    + intros x. apply ref_count_of_alter. by rewrite Hb.
    + lia.
    + apply (wf_counter p Hwf).
    + apply (wf_nodup p Hwf).
    + intros x. cbn. destruct (decide (x = b)) as [->|]; [|done]. tauto.
Qed.

Lemma release_loop_wf bs p p' : wf p -> release_loop bs p = Ok p' -> wf p'.
Proof.
  revert p. induction bs as [|b bs IH]; intros p Hwf; cbn [release_loop].
  - by intros [= <-].
  - destruct (release_one b p) as [p1|e] eqn:E; cbn [mbind result_bind]; [|done].
    apply IH. by apply (release_one_wf b p).
Qed.

Lemma release_wf bs p : wf p -> wf (release bs p).2.
Proof.
  intros Hwf. unfold release.
  destruct (release_loop bs p) as [p'|e] eqn:E; [|done].
  by apply (release_loop_wf bs p).
Qed.

Lemma length_filter_remove (b : nat) (l : list nat) :
  NoDup l -> b ∈ l ->
  length (filter (fun x => x <> b) l) = pred (length l).
Proof.
  induction l as [|x l IH]; [by intros _ ?%elem_of_nil|].
  intros [Hx Hnd]%NoDup_cons Hin. rewrite filter_cons.
  destruct (decide (x <> b)) as [Hne|Heq].
  - apply elem_of_cons in Hin as [->|Hin]; [done|].
    cbn [length]. rewrite IH by done. destruct l; [by apply elem_of_nil in Hin|done].
  - assert (x = b) as -> by (destruct (decide (x = b)); [done|tauto]).
    cbn [length pred]. f_equal. clear IH Hin Hnd Heq.
    induction l as [|y l IH]; [done|].
    apply not_elem_of_cons in Hx as [Hby Hx].
    rewrite filter_cons. destruct (decide (y <> b)) as [_|Hn].
    + cbn [length]. by rewrite IH.
    + exfalso. apply Hn. by intros ->.
Qed.

Lemma try_cache_lookup_wf hash group_id p :
  wf p -> wf (try_cache_lookup hash group_id p).2.
Proof.
  intros Hwf. unfold try_cache_lookup.
  destruct (PrefixCacheIndex.lookup (hash, group_id) (cache_index p)) as [b|];
    [|done].
  destruct (blocks p !! b) as [blk|] eqn:Hb; [|done].
  assert (Hrc : ref_count_of b p = Some (ref_count blk)).
  { unfold ref_count_of. by rewrite Hb. }
  assert (Hnn := wf_nonneg p Hwf b _ Hrc).
  destruct (Z.eqb_spec (ref_count blk) 0) as [H0|Hne].
  - assert (Hin : b ∈ chain (free_block_queue p)).
    { rewrite (wf_free p Hwf), Hrc. by rewrite H0. }
    unfold FreeBlockQueue.remove. rewrite bool_decide_eq_true_2 by done.
    cbn [snd]. apply (wf_update p _ b (ref_count blk + 1)); try done.
    + cbn. by apply ids_alter.
    + intros x. rewrite <- (ref_count_of_alter p b (ref_count blk + 1) x); [done|].
      by rewrite Hb.
    + lia.
    + unfold counter_tracks_chain. cbn.
      rewrite length_filter_remove; [|apply (wf_nodup p Hwf)|done].
      by rewrite (wf_counter p Hwf).
    + cbn. apply NoDup_filter, (wf_nodup p Hwf).
    + intros x. cbn. rewrite list_elem_of_filter.
      destruct (decide (x = b)) as [->|]; [|tauto]. split; [tauto|lia].
  - cbn [snd]. apply bump_wf; [done|by rewrite Hb|lia|].
    rewrite (wf_free p Hwf), Hrc. intros [=]. lia.
Qed.

Lemma retains_held_cons o ops p :
  retains_held (o :: ops) p = true ->
  match o with Retain b => held b p = true | _ => True end
  /\ retains_held ops (step p o) = true.
Proof.
  cbn [retains_held]. intros [H1 H2]%andb_true_iff. split; [|done].
  by destruct o.
Qed.

Lemma step_wf p o :
  wf p -> match o with Retain b => held b p = true | _ => True end ->
  wf (step p o).
Proof.
  intros Hwf Ho. destruct o as [n|b|bs|hash group_id]; cbn [step].
  - by apply allocate_wf.
  - by apply retain_wf.
  - by apply release_wf.
  - by apply try_cache_lookup_wf.
Qed.

Lemma run_wf ops p : wf p -> retains_held ops p = true -> wf (run ops p).
Proof.
  revert p. induction ops as [|o ops IH]; intros p Hwf Hops; [done|].
  apply retains_held_cons in Hops as [Ho Hops].
  unfold run. cbn [foldl]. apply IH; [by apply step_wf|done].
Qed.

Lemma retains_held_take k ops p :
  retains_held ops p = true -> retains_held (take k ops) p = true.
Proof.
  revert k p. induction ops as [|o ops IH]; intros [|k] p Hops; [done..|].
  pose proof (retains_held_cons o ops p Hops) as [_ Hrest].
  cbn [take retains_held] in *. apply andb_true_iff in Hops as [Ho _].
  rewrite Ho. cbn. by apply IH.
Qed.

Lemma allocate_loop_capacity n p popped :
  match allocate_loop n p popped with
  | Done p' _ => capacity p' = capacity p
  | Failed _ _ _ => True
  end.
Proof.
  revert p popped. induction n as [|n IH]; intros p popped; cbn [allocate_loop];
    [done|].
  destruct (FreeBlockQueue.take_front (free_block_queue p)) as [[b q]|]; [|done].
  match goal with |- context [allocate_loop n ?p2 ?acc] =>
    specialize (IH p2 acc); destruct (allocate_loop n p2 acc); [|done]
  end.
  rewrite IH. cbn. by rewrite evict_capacity.
Qed.

Lemma release_loop_capacity bs p p' :
  release_loop bs p = Ok p' -> capacity p' = capacity p.
Proof.
  revert p. induction bs as [|b bs IH]; intros p; cbn [release_loop];
    [by intros [= <-]|].
  destruct (release_one b p) as [p1|e] eqn:E1; cbn [mbind result_bind]; [|done].
  intros ->%IH. revert E1. unfold release_one.
  destruct (blocks p !! b) as [blk|]; [|done].
  destruct (ref_count blk <=? 0); [done|].
  destruct (ref_count (with_ref_count (ref_count blk - 1) blk) =? 0).
  - destruct (FreeBlockQueue.push_back _ _); cbn [mbind result_bind]; [|done].
    by intros [= <-].
  - by intros [= <-].
Qed.

Lemma step_capacity p o : capacity (step p o) = capacity p.
Proof.
  destruct o as [n|b|bs|hash group_id]; cbn [step].
  - unfold allocate. pose proof (allocate_loop_capacity n p []) as H.
    by destruct (allocate_loop n p []).
  - unfold retain. by destruct (blocks p !! b).
  - unfold release. destruct (release_loop bs p) as [p'|e] eqn:E; [|done].
    by apply (release_loop_capacity bs).
  - unfold try_cache_lookup.
    destruct (PrefixCacheIndex.lookup _ _) as [b|]; [|done].
    destruct (blocks p !! b) as [blk|]; [|done].
    destruct (ref_count blk =? 0); [|done].
    by destruct (FreeBlockQueue.remove _ _).
Qed.

Lemma run_capacity ops p : capacity (run ops p) = capacity p.
Proof.
  revert p. induction ops as [|o ops IH]; intros p; [done|].
  unfold run. cbn [foldl]. fold (run ops (step p o)).
  by rewrite IH, step_capacity.
Qed.

(** Why [retain] is for held blocks only: on a block that is free it bumps the
    count and leaves the block in the free queue, so the block is both free
    and referenced.  In a pool of capacity 1 the two counts then add up
    to 2. *)
Lemma retain_of_free_block_breaks_count :
  let p := run [Retain 0] (new 1 16) in
  capacity p = 1%nat /\ free_count p = 1%nat /\ referenced_count p = 1%nat
  /\ (free_count p + referenced_count p)%nat <> capacity p.
Proof. vm_compute. repeat split; try reflexivity. discriminate. Qed.

Lemma cached_pool_wf : wf Cached.pool.
Proof.
  split.
  - reflexivity.
  - intros [|[|[|b]]] v; cbn; intros [= <-]; lia.
  - reflexivity.
  - apply (bool_decide_unpack _). vm_compute. exact I.
  - intros [|[|[|b]]]; cbn; rewrite !elem_of_cons, elem_of_nil;
      split; try done; try lia; intros [|[|[]]]; lia.
Qed.

(** C4. For every pool that keeps the invariants of section 3, of any capacity
    and with any cache index (a fresh pool is one, [new_wf]), and every
    sequence of allocate, retain, release and try_cache_lookup calls in which
    retain is called on held blocks only, as its contract says: after each
    call of the sequence free_count plus the number of blocks with
    ref_count > 0 is the capacity, and the pool still has that many blocks. *)
Theorem free_plus_referenced_is_capacity (p : BlockPool) (ops : list op) :
  wf p -> retains_held ops p = true ->
  forall k,
    let p' := run (take k ops) p in
    (free_count p' + referenced_count p')%nat = capacity p
    /\ capacity p' = capacity p
    /\ length (blocks p') = capacity p.
Proof.
  intros Hwf Hops k p'.
  assert (Hwf' : wf p').
  { apply run_wf; [done|by apply retains_held_take]. }
  assert (Hcap : capacity p' = capacity p) by apply run_capacity.
  split; [by rewrite (wf_count p' Hwf')|]. split; [done|].
  by rewrite (wf_length p' Hwf').
Qed.

Lemma free_plus_referenced_is_capacity_witness :
  (let p := run Cached.ops Cached.pool in
   wf Cached.pool /\ retains_held Cached.ops Cached.pool = true
   /\ (try_cache_lookup "hash_0" 0 Cached.pool).1 = Ok (Some 0%nat)
   /\ free_count p = 1%nat
   /\ (free_count p + referenced_count p)%nat = 3%nat)
  /\ (let ops := [Allocate 3; Retain 1; Release [0; 1]%nat;
                  TryCacheLookup "hash_0" 0; Allocate 9; Release [1; 1]%nat] in
      let p := run ops (new 4 16) in
      retains_held ops (new 4 16) = true
      /\ (free_count p + referenced_count p)%nat = 4%nat).
Proof.
  split.
  - intros p.
    assert (Hops : retains_held Cached.ops Cached.pool = true)
      by (vm_compute; reflexivity).
    split; [exact cached_pool_wf|]. split; [exact Hops|].
    split; [vm_compute; reflexivity|]. split; [vm_compute; reflexivity|].
    exact (proj1 (free_plus_referenced_is_capacity Cached.pool Cached.ops
                    cached_pool_wf Hops 8)).
  - intros ops p.
    assert (Hops : retains_held ops (new 4 16) = true) by (vm_compute; reflexivity).
    split; [exact Hops|].
    exact (proj1 (free_plus_referenced_is_capacity (new 4 16) ops
                    (new_wf 4 16) Hops 6)).
Defined.

End PoolFacts.

Module ScenarioFacts.
Import Analyzer Pool Pool.BlockPool Pool.Scenario.

(** C1, as it is worded, fails: after the three allocations and the release of
    the second request, block 33 is free, and it is not among the ids 10..24
    and 41..49; these are 24 ids, while 32 blocks are free. *)
Lemma scenario_free_ids_not_as_expected :
  free_count freed.2 = 32%nat
  /\ (33 ∈ free_ids) /\ (33 ∉ expected_free_ids)
  /\ length expected_free_ids = 24%nat
  /\ ~ (forall x, x ∈ free_ids <-> x ∈ expected_free_ids).
Proof.
  assert (Hin : 33 ∈ free_ids).
  { apply (bool_decide_unpack _). vm_compute. exact I. }
  assert (Hout : 33 ∉ expected_free_ids).
  { apply (bool_decide_unpack _). vm_compute. exact I. }
  split; [vm_compute; reflexivity|]. split; [exact Hin|]. split; [exact Hout|].
  split; [reflexivity|]. intros H. apply Hout, H, Hin.
Qed.

(** C1, with the ids the pool really frees: from a fresh pool of capacity 50,
    allocate(10), allocate(15), allocate(8) hand out the blocks 0..9, 10..24
    and 25..32 and leave free_count = 17; releasing the 15 blocks of the second
    request leaves free_count = 32 and the free ids 10..24 and 33..49, on which
    the analysis reports 2 runs, largest run 17, average run 16.0 and ratio
    1 - 17/32 = 0.46875.  On the ids 10..24 and 41..49 the analysis reports
    2 runs, largest run 15, average run 12.0 and ratio 1 - 15/24 = 0.375. *)
Theorem scenario_fragmentation :
  req1.1 = Ok (seq 0 10) /\ req2.1 = Ok (seq 10 15) /\ req3.1 = Ok (seq 25 8)
  /\ free_count req3.2 = 17%nat
  /\ freed.1 = Ok tt /\ free_count freed.2 = 32%nat
  /\ sorted free_ids = seqZ 10 15 ++ seqZ 33 17
  /\ (exists rep m,
        analyze free_ids = Ok rep /\ metrics rep = Some m
        /\ runs rep = [seqZ 10 15; seqZ 33 17]
        /\ run_count rep = 2%nat /\ largest_run m = 17%nat
        /\ (average_run m == 16)%Q
        /\ (external_frag m == 1 - 17 / 32)%Q
        /\ average_run_float (runs rep) = 16%float
        /\ external_frag_float (largest_run m) (free_block_ids rep)
           = 0.46875%float)
  /\ (exists rep m,
        analyze expected_free_ids = Ok rep /\ metrics rep = Some m
        /\ runs rep = [seqZ 10 15; seqZ 41 9]
        /\ run_count rep = 2%nat /\ largest_run m = 15%nat
        /\ (average_run m == 12)%Q
        /\ (external_frag m == 1 - 15 / 24)%Q
        /\ average_run_float (runs rep) = 12%float
        /\ external_frag_float (largest_run m) (free_block_ids rep)
           = 0.375%float).
Proof.
  repeat (split; [vm_compute; reflexivity|]).
  split.
  - eexists _, _. split; [vm_compute; reflexivity|].
    repeat (split; [vm_compute; reflexivity|]). vm_compute; reflexivity.
  - eexists _, _. split; [vm_compute; reflexivity|].
    repeat (split; [vm_compute; reflexivity|]). vm_compute; reflexivity.
Qed.

End ScenarioFacts.

(** * More about the analysis (testing.py, lines 216-250) *)
Module AnalysisFacts.
Import Analyzer Listing AnalyzerFacts.

(** *** Sorting *)

Lemma sorted_of_Permutation (ids ids' : list Z) :
  ids ≡ₚ ids' -> sorted ids = sorted ids'.
Proof.
  intros Hp. apply (Sorted_unique Z.le); [apply sorted_Sorted..|].
  by rewrite !sorted_Permutation.
Qed.

Lemma sorted_id (l : list Z) : Sorted Z.le l -> sorted l = l.
Proof.
  intros Hs. apply (Sorted_unique Z.le); [apply sorted_Sorted|done|].
  apply sorted_Permutation.
Qed.

(** X1. The report depends on the ids only, not on the order in which the
    free queue lists them. *)
Theorem analyze_order_irrelevant (ids ids' : list Z) :
  ids ≡ₚ ids' -> analyze ids = analyze ids'.
Proof.
  intros Hp. unfold analyze. by rewrite (sorted_of_Permutation ids ids' Hp).
Qed.

Lemma analyze_order_irrelevant_witness :
  [33; 34; 10; 11; 12] ≡ₚ [10; 11; 12; 33; 34]
  /\ analyze [33; 34; 10; 11; 12] = analyze [10; 11; 12; 33; 34].
Proof.
  assert (Hp : [33; 34; 10; 11; 12] ≡ₚ [10; 11; 12; 33; 34]).
  { apply (Permutation_app_comm [33; 34] [10; 11; 12]). }
  split; [exact Hp|]. exact (analyze_order_irrelevant _ _ Hp).
Defined.

(** *** Runs are intervals *)

Lemma consecutive_interval r :
  consecutive r ->
  exists a, head r = Some a
            /\ r = seqZ a (Z.of_nat (length r))
            /\ last r = Some (a + Z.of_nat (length r) - 1).
Proof.
  induction 1 as [x|x y r Hy Hc (a & Ha & Hr & Hl)].
  - exists x. split; [done|]. split; [|cbn; f_equal; lia].
    cbn [length]. rewrite seqZ_cons by lia. by rewrite seqZ_nil by lia.
  - cbn in Ha. injection Ha as <-. exists x. split; [done|]. split.
    + rewrite seqZ_cons by (cbn [length]; lia). f_equal.
      rewrite Hr at 1. f_equal; [lia|]. cbn [length]. lia.
    + rewrite last_cons_cons, Hl. f_equal. cbn [length]. lia.
Qed.

Lemma consecutive_NoDup r : consecutive r -> NoDup r.
Proof.
  intros (a & _ & -> & _)%consecutive_interval. apply NoDup_seqZ.
Qed.



(** *** Bounds on the metrics *)

Lemma run_lengths_positive (rs : list (list Z)) :
  Forall consecutive rs -> Forall (fun n => (1 <= n)%nat) (map (@length Z) rs).
Proof.
  induction 1 as [|r rs Hc _ IH]; constructor; [|done].
  destruct Hc; cbn; lia.
Qed.

Lemma length_le_sum (xs : list nat) :
  Forall (fun n => (1 <= n)%nat) xs -> (length xs <= sum_list xs)%nat.
Proof.
  induction 1 as [|x xs Hx _ IH]; [done|].
  change (sum_list (x :: xs)) with (x + sum_list xs)%nat. cbn [length]. lia.
Qed.

Lemma max_plus_length_le_sum (xs : list nat) :
  Forall (fun n => (1 <= n)%nat) xs -> xs <> [] ->
  (max_list xs + length xs <= sum_list xs + 1)%nat.
Proof.
  induction 1 as [|x xs Hx Hxs IH]; [done|]. intros _.
  destruct xs as [|y xs].
  - cbn. unfold id. lia.
  - specialize (IH ltac:(done)).
    change (max_list (x :: y :: xs)) with (x `max` max_list (y :: xs))%nat.
    change (sum_list (x :: y :: xs)) with (x + sum_list (y :: xs))%nat.
    pose proof (length_le_sum (y :: xs) Hxs).
    cbn [length] in *. lia.
Qed.

Lemma sum_le_length_times_max (xs : list nat) :
  (sum_list xs <= length xs * max_list xs)%nat.
Proof.
  induction xs as [|x xs IH]; [done|].
  change (max_list (x :: xs)) with (x `max` max_list xs)%nat.
  change (sum_list (x :: xs)) with (x + sum_list xs)%nat.
  cbn [length]. nia.
Qed.

(** The counts behind the metrics of a non-empty list of ids. *)
Lemma run_counts (l : list Z) :
  l <> [] ->
  let lens := map (@length Z) (group_runs l) in
  sum_list lens = length l
  /\ (1 <= length (group_runs l))%nat
  /\ (1 <= max_list lens)%nat
  /\ (max_list lens + length (group_runs l) <= length l + 1)%nat
  /\ (length (group_runs l) <= length l)%nat
  /\ (length l <= length (group_runs l) * max_list lens)%nat.
Proof.
  intros Hne lens.
  assert (Hsum : sum_list lens = length l).
  { unfold lens. by rewrite sum_list_lengths, group_runs_concat. }
  assert (Hpos := run_lengths_positive _ (group_runs_consecutive l)).
  fold lens in Hpos.
  assert (HG : group_runs l <> []) by by rewrite group_runs_nil_iff.
  assert (Hlens : lens <> []) by (unfold lens; by destruct (group_runs l)).
  assert (Hlen : length lens = length (group_runs l)) by apply length_map.
  pose proof (max_plus_length_le_sum lens Hpos Hlens).
  pose proof (length_le_sum lens Hpos).
  pose proof (sum_le_length_times_max lens).
  assert (1 <= length lens)%nat by (destruct lens; [done|cbn; lia]).
  repeat split; lia.
Qed.

Lemma Zpos_of_nat (b : nat) : b <> 0%nat -> Z.pos (Pos.of_nat b) = Z.of_nat b.
Proof.
  destruct b as [|b]; [done|]. intros _.
  rewrite <- Pos.of_nat_succ, Znat.Zpos_P_of_succ_nat. lia.
Qed.

Lemma Qdiv_nat (a b : nat) :
  b <> 0%nat ->
  (inject_Z (Z.of_nat a) / inject_Z (Z.of_nat b) == Z.of_nat a # Pos.of_nat b)%Q.
Proof.
  intros Hb. rewrite Qmake_Qdiv. by rewrite Zpos_of_nat.
Qed.

Lemma Q_ratio_bounds (a b : nat) :
  (1 <= a)%nat -> (a <= b)%nat ->
  let q := (1 - inject_Z (Z.of_nat a) / inject_Z (Z.of_nat b))%Q in
  (0 <= q)%Q /\ (q < 1)%Q /\ ((q == 0)%Q <-> a = b).
Proof.
  intros Ha Hab q. unfold q. rewrite Qdiv_nat by lia.
  unfold Qle, Qlt, Qeq, Qminus, Qplus, Qopp. cbn [Qnum Qden].
  rewrite !Zpos_of_nat by lia. repeat split; try lia.
Qed.

Lemma Q_mean_bounds (s n m : nat) :
  (1 <= n)%nat -> (n <= s)%nat -> (s <= n * m)%nat ->
  let q := (inject_Z (Z.of_nat s) / inject_Z (Z.of_nat n))%Q in
  (1 <= q)%Q /\ (q <= inject_Z (Z.of_nat m))%Q.
Proof.
  intros Hn Hns Hsm q. unfold q. rewrite Qdiv_nat by lia.
  unfold Qle, inject_Z. cbn [Qnum Qden].
  rewrite !Zpos_of_nat by lia. split; nia.
Qed.

(** X3. For every non-empty list of ids: the largest run has between 1 and
    total_free blocks, there are between 1 and total_free runs, the runs
    besides the largest take at least one block each, and the fragmentation
    ratio lies in [0, 1). *)
Theorem metrics_bounds (ids : list Z) :
  ids <> [] ->
  exists rep m,
    analyze ids = Ok rep /\ metrics rep = Some m
    /\ (1 <= largest_run m <= total_free m)%nat
    /\ (1 <= number_of_runs m <= total_free m)%nat
    /\ (number_of_runs m + largest_run m <= total_free m + 1)%nat
    /\ (0 <= external_frag m)%Q /\ (external_frag m < 1)%Q.
Proof.
  intros Hne. eexists _, _. split; [by apply analyze_cons|].
  cbn [metrics]. split; [done|].
  unfold metrics_of. cbn [largest_run total_free number_of_runs external_frag].
  assert (Hs : sorted ids <> []) by by rewrite sorted_nil_iff.
  destruct (run_counts (sorted ids) Hs) as (Hsum & Hn1 & Hm1 & Hmn & Hnl & _).
  cbn zeta in *.
  assert (Hml : (max_list (map (@length Z) (group_runs (sorted ids)))
                 <= length (sorted ids))%nat) by lia.
  destruct (Q_ratio_bounds _ _ Hm1 Hml) as (H0 & H1 & _).
  repeat split; try lia; done.
Qed.

Lemma metrics_bounds_witness :
  [33; 10; 11; 34; 12] <> []
  /\ exists rep m,
       analyze [33; 10; 11; 34; 12] = Ok rep /\ metrics rep = Some m
       /\ (0 <= external_frag m)%Q /\ (external_frag m < 1)%Q.
Proof.
  split; [discriminate|].
  destruct (metrics_bounds [33; 10; 11; 34; 12])
    as (rep & m & Ha & Hm & _ & _ & _ & H0 & H1); [discriminate|].
  by exists rep, m.
Defined.

(** X4. For every non-empty list of ids the mean run size lies between 1 and
    the size of the largest run. *)
Theorem average_run_bounds (ids : list Z) :
  ids <> [] ->
  exists rep m,
    analyze ids = Ok rep /\ metrics rep = Some m
    /\ (1 <= average_run m)%Q
    /\ (average_run m <= inject_Z (Z.of_nat (largest_run m)))%Q.
Proof.
  intros Hne. eexists _, _. split; [by apply analyze_cons|].
  cbn [metrics]. split; [done|].
  unfold metrics_of. cbn [largest_run average_run].
  assert (Hs : sorted ids <> []) by by rewrite sorted_nil_iff.
  destruct (run_counts (sorted ids) Hs) as (Hsum & Hn1 & _ & _ & Hnl & Hlm).
  cbn zeta in *. rewrite py_sum_sum_list, Hsum.
  by apply Q_mean_bounds.
Qed.

Lemma average_run_bounds_witness :
  [33; 10; 11; 34; 12] <> []
  /\ exists rep m,
       analyze [33; 10; 11; 34; 12] = Ok rep /\ metrics rep = Some m
       /\ (1 <= average_run m)%Q
       /\ (average_run m <= inject_Z (Z.of_nat (largest_run m)))%Q.
Proof.
  split; [discriminate|].
  exact (average_run_bounds [33; 10; 11; 34; 12] ltac:(discriminate)).
Defined.

(** X5. For every non-empty list of ids the fragmentation ratio is 0 exactly
    when there is a single run, that is when the sorted ids are consecutive. *)
Theorem external_frag_zero_iff_one_run (ids : list Z) :
  ids <> [] ->
  exists rep m,
    analyze ids = Ok rep /\ metrics rep = Some m
    /\ ((external_frag m == 0)%Q <-> number_of_runs m = 1%nat)
    /\ (number_of_runs m = 1%nat <-> consecutive (free_block_ids rep)).
Proof.
  intros Hne. eexists _, _. split; [by apply analyze_cons|].
  cbn [metrics free_block_ids]. split; [done|].
  unfold metrics_of. cbn [number_of_runs external_frag].
  assert (Hs : sorted ids <> []) by by rewrite sorted_nil_iff.
  destruct (run_counts (sorted ids) Hs) as (Hsum & Hn1 & Hm1 & Hmn & Hnl & Hlm).
  cbn zeta in *.
  assert (Hml : (max_list (map (@length Z) (group_runs (sorted ids)))
                 <= length (sorted ids))%nat) by lia.
  destruct (Q_ratio_bounds _ _ Hm1 Hml) as (_ & _ & Hz).
  split.
  - rewrite Hz. split; [lia|]. intros H1. rewrite H1 in Hlm. lia.
  - split.
    + intros H1. destruct (group_runs (sorted ids)) as [|r [|r' rs]] eqn:E;
        try done.
      pose proof (group_runs_concat (sorted ids)) as Hcat.
      pose proof (group_runs_consecutive (sorted ids)) as HF.
      rewrite E in Hcat, HF. cbn in Hcat. rewrite app_nil_r in Hcat. subst r.
      by apply Forall_cons_1 in HF as [? _].
    + intros Hc. by rewrite (consecutive_group_runs _ Hc).
Qed.

Lemma external_frag_zero_iff_one_run_witness :
  [33; 10; 11; 34; 12] <> []
  /\ exists rep m,
       analyze [33; 10; 11; 34; 12] = Ok rep /\ metrics rep = Some m
       /\ number_of_runs m = 2%nat /\ ~ (external_frag m == 0)%Q.
Proof.
  split; [discriminate|].
  destruct (external_frag_zero_iff_one_run [33; 10; 11; 34; 12])
    as (rep & m & Ha & Hm & Hiff & _); [discriminate|].
  exists rep, m. split; [exact Ha|]. split; [exact Hm|].
  assert (Hn : number_of_runs m = 2%nat).
  { vm_compute in Ha. injection Ha as <-. cbn in Hm. by injection Hm as <-. }
  split; [exact Hn|]. rewrite Hiff, Hn. discriminate.
Defined.

(** *** Runs and gaps *)

Lemma gaps_cons x y l :
  gaps (x :: y :: l) = ((if (y =? x + 1)%Z then 0 else 1) + gaps (y :: l))%nat.
Proof. done. Qed.

Lemma group_runs_length (l : list Z) :
  length (group_runs l) = match l with [] => 0%nat | _ :: _ => S (gaps l) end.
Proof.
  induction l as [|x l IH]; [done|].
  destruct (group_runs_cons_cases x l (group_runs_consecutive l))
    as [[Hg ->]|[(y & r & rs & Hg & Hy & ->)|(y & r & rs & Hg & Hy & ->)]].
  - apply group_runs_nil_iff in Hg as ->. done.
  - destruct l as [|y' l]; [done|].
    destruct (group_runs_cons_head y' l) as (r' & rs' & Hg').
    rewrite Hg in IH, Hg'. injection Hg' as -> _ _.
    rewrite gaps_cons. cbn [length] in *.
    destruct (Z.eqb_spec y' (x + 1)); lia.
  - destruct l as [|y' l]; [done|].
    destruct (group_runs_cons_head y' l) as (r' & rs' & Hg').
    rewrite Hg in IH, Hg'. injection Hg' as -> _ _.
    rewrite gaps_cons. cbn [length] in *.
    destruct (Z.eqb_spec y' (x + 1)); lia.
Qed.

(** X6. The run count the analysis prints is 0 for no ids and otherwise one
    more than the number of places in the sorted ids where the next id is not
    the successor of the one before. *)
Theorem run_count_counts_gaps (ids : list Z) :
  exists rep,
    analyze ids = Ok rep
    /\ run_count rep = match ids with
                       | [] => 0%nat
                       | _ :: _ => S (gaps (free_block_ids rep))
                       end.
Proof.
  destruct ids as [|b ids].
  - eexists. split; [apply analyze_nil|done].
  - eexists. split; [by apply analyze_cons|].
    cbn [run_count free_block_ids]. rewrite group_runs_length.
    assert (Hs : sorted (b :: ids) <> []) by by rewrite sorted_nil_iff.
    by destruct (sorted (b :: ids)).
Qed.

(** The ids, the runs and the run count of every report. *)
Lemma analyze_runs (ids : list Z) :
  exists rep,
    analyze ids = Ok rep
    /\ free_block_ids rep = sorted ids
    /\ runs rep = group_runs (sorted ids)
    /\ run_count rep = length (group_runs (sorted ids)).
Proof.
  destruct ids as [|b ids].
  - eexists. split; [apply analyze_nil|done].
  - eexists. split; [by apply analyze_cons|done].
Qed.

(** *** Repeated ids *)

Lemma occurrences_NoDup (x : Z) (r : list Z) :
  NoDup r ->
  length (filter (fun y => y = x) r) = if decide (x ∈ r) then 1%nat else 0%nat.
Proof.
  induction 1 as [|y r Hy Hnd IH]; [done|].
  rewrite filter_cons. destruct (decide (y = x)) as [->|Hne].
  - cbn [length]. rewrite IH. rewrite decide_False by done.
    rewrite decide_True by left. done.
  - rewrite IH. destruct (decide (x ∈ r)) as [Hin|Hin].
    + rewrite decide_True by by right. done.
    + rewrite decide_False; [done|]. rewrite elem_of_cons. intros [->|?]; done.
Qed.

Lemma occurrences_in_runs (x : Z) (rs : list (list Z)) :
  Forall (@NoDup Z) rs ->
  length (filter (fun r => x ∈ r) rs)
  = length (filter (fun y => y = x) (concat rs)).
Proof.
  induction 1 as [|r rs Hr _ IH]; [done|].
  cbn [concat]. rewrite filter_app, length_app, <- IH, filter_cons.
  rewrite (occurrences_NoDup x r Hr). by destruct (decide (x ∈ r)).
Qed.

(** *** The runs partition the positions of the input *)

Lemma run_start_cons r (rs : list (list Z)) j :
  run_start (r :: rs) (S j) = (length r + run_start rs j)%nat.
Proof. unfold run_start. cbn [take concat]. apply length_app. Qed.

Lemma run_start_S (rs : list (list Z)) j r :
  rs !! j = Some r -> run_start rs (S j) = (run_start rs j + length r)%nat.
Proof.
  intros Hj. unfold run_start. rewrite (take_S_r rs j r Hj), concat_app.
  rewrite length_app. cbn. by rewrite app_nil_r.
Qed.

Lemma run_start_mono (rs : list (list Z)) j j' :
  (j <= j')%nat -> (run_start rs j <= run_start rs j')%nat.
Proof.
  intros Hle. unfold run_start.
  rewrite <- (take_drop j (take j' rs)), take_take, concat_app, length_app.
  replace (j `min` j')%nat with j by lia. lia.
Qed.

Lemma position_in_run_exists (rs : list (list Z)) i :
  (i < length (concat rs))%nat ->
  exists j r,
    rs !! j = Some r
    /\ (run_start rs j <= i < run_start rs j + length r)%nat
    /\ r !! (i - run_start rs j)%nat = concat rs !! i.
Proof.
  revert i. induction rs as [|r0 rs IH]; intros i Hi; [cbn in Hi; lia|].
  cbn [concat] in *. rewrite length_app in Hi.
  destruct (decide (i < length r0)%nat) as [Hlt|Hge].
  - exists 0%nat, r0. split; [done|]. unfold run_start. cbn.
    split; [lia|]. rewrite Nat.sub_0_r. by rewrite lookup_app_l.
  - destruct (IH (i - length r0)%nat) as (j & r & Hj & Hpos & Hitem); [lia|].
    exists (S j), r. split; [done|]. rewrite run_start_cons.
    split; [lia|]. rewrite lookup_app_r by lia. rewrite <- Hitem.
    f_equal. lia.
Qed.

Lemma position_in_run_unique (rs : list (list Z)) i j j' :
  position_in_run rs j i -> position_in_run rs j' i -> j = j'.
Proof.
  assert (Hlt : forall a b, (a < b)%nat ->
            position_in_run rs a i -> position_in_run rs b i -> False).
  { intros a b Hab (r & Hr & Ha) (r' & Hr' & Hb).
    pose proof (run_start_S rs a r Hr) as HS.
    pose proof (run_start_mono rs (S a) b ltac:(lia)). lia. }
  intros Hj Hj'. destruct (Nat.lt_trichotomy j j') as [H|[H|H]]; [|done|].
  - destruct (Hlt j j' H Hj Hj').
  - destruct (Hlt j' j H Hj' Hj).
Qed.

(** C9, where it fails as worded: the list [1; 1] is sorted ascending, its two
    items are put in two runs, and the id 1 lies in both of them. *)
Lemma find_runs_repeated_id_in_two_runs :
  [1; 1] <> [] /\ Sorted Z.le [1; 1]
  /\ find_runs [1; 1] = Ok [[1]; [1]]
  /\ in_run [[1]; [1]] 0 1 /\ in_run [[1]; [1]] 1 1
  /\ ~ (exists i, in_run [[1]; [1]] i 1
                  /\ forall j, in_run [[1]; [1]] j 1 -> j = i).
Proof.
  assert (H0 : in_run [[1]; [1]] 0 1) by (exists [1]; split; [done|left]).
  assert (H1 : in_run [[1]; [1]] 1 1) by (exists [1]; split; [done|left]).
  split; [done|]. split; [repeat constructor; lia|]. split; [reflexivity|].
  split; [exact H0|]. split; [exact H1|].
  intros (i & _ & Hi). pose proof (Hi 0%nat H0). pose proof (Hi 1%nat H1). lia.
Qed.

(** C9, as the loop has it: on a non-empty list of ids sorted ascending the
    loop returns runs that partition the input.  Concatenated they give the
    input back, none is empty, their lengths add up to the length of the
    input, every position of the input falls in exactly one run, which holds
    the item of that position, and every id lies in as many runs as it occurs
    in the input: in exactly one run when the ids are distinct. *)
Theorem find_runs_partitions (l : list Z) :
  l <> [] -> Sorted Z.le l ->
  exists rs,
    find_runs l = Ok rs
    /\ rs <> []
    /\ concat rs = l
    /\ Forall (fun r => r <> []) rs
    /\ py_sum (map (@length Z) rs) = length l
    /\ (forall i, (i < length l)%nat ->
          exists j r,
            rs !! j = Some r /\ position_in_run rs j i
            /\ r !! (i - run_start rs j)%nat = l !! i
            /\ forall j', position_in_run rs j' i -> j' = j)
    /\ (forall x, length (filter (fun r => x ∈ r) rs)
                  = length (filter (fun y => y = x) l))
    /\ (NoDup l ->
        forall x, x ∈ l ->
          exists i, in_run rs i x /\ forall j, in_run rs j x -> j = i).
Proof.
  intros Hne Hs. exists (group_runs l).
  pose proof (group_runs_concat l) as Hcat.
  split; [apply find_runs_group_runs|].
  split; [by rewrite group_runs_nil_iff|].
  split; [done|].
  split.
  { eapply Forall_impl; [apply group_runs_consecutive|].
    intros r. apply consecutive_nonempty. }
  split; [by rewrite py_sum_sum_list, sum_list_lengths, Hcat|].
  split.
  { intros i Hi. rewrite <- Hcat in Hi.
    destruct (position_in_run_exists (group_runs l) i Hi)
      as (j & r & Hj & Hpos & Hitem).
    exists j, r. rewrite Hcat in Hitem.
    assert (Hin : position_in_run (group_runs l) j i) by by exists r.
    split; [done|]. split; [done|]. split; [done|].
    intros j' Hj'. by apply (position_in_run_unique (group_runs l) i). }
  split.
  { intros x. rewrite occurrences_in_runs, Hcat; [done|].
    eapply Forall_impl; [apply group_runs_consecutive|]. apply consecutive_NoDup. }
  intros Hnd x Hx. rewrite <- Hcat in Hnd, Hx.
  destruct (in_run_exists (group_runs l) x Hx) as [i Hi].
  exists i. split; [done|]. intros j Hj.
  by apply (in_run_unique (group_runs l) j i x).
Qed.

Lemma find_runs_partitions_witness :
  [1; 2; 2; 3; 7] <> [] /\ Sorted Z.le [1; 2; 2; 3; 7]
  /\ exists rs,
       find_runs [1; 2; 2; 3; 7] = Ok rs
       /\ rs = [[1; 2]; [2; 3]; [7]]
       /\ length (filter (fun r => 2 ∈ r) rs) = 2%nat
       /\ length (filter (fun r => 7 ∈ r) rs) = 1%nat.
Proof.
  assert (Hs : Sorted Z.le [1; 2; 2; 3; 7]).
  { repeat (constructor; try lia). }
  split; [discriminate|]. split; [exact Hs|].
  destruct (find_runs_partitions [1; 2; 2; 3; 7])
    as (rs & Hf & _ & _ & _ & _ & _ & Hocc & _); [discriminate|exact Hs|].
  exists rs. split; [exact Hf|]. split.
  { vm_compute in Hf. by injection Hf as <-. }
  split; [by rewrite Hocc|by rewrite Hocc].
Defined.

(** X7. In every report the runs list no id twice, and an id lies in as many
    runs as it occurs among the ids given: an id given k times starts a run of
    its own k - 1 times. *)
Theorem repeated_ids_split_runs (ids : list Z) (x : Z) :
  exists rep,
    analyze ids = Ok rep
    /\ Forall (@NoDup Z) (runs rep)
    /\ length (filter (fun r => x ∈ r) (runs rep))
       = length (filter (fun y => y = x) ids).
Proof.
  destruct (analyze_runs ids) as (rep & Ha & _ & Hruns & _).
  exists rep. split; [done|]. rewrite Hruns.
  assert (Hnd : Forall (@NoDup Z) (group_runs (sorted ids))).
  { eapply Forall_impl; [apply group_runs_consecutive|]. apply consecutive_NoDup. }
  split; [done|].
  rewrite (occurrences_in_runs x _ Hnd), group_runs_concat.
  by rewrite sorted_Permutation.
Qed.

(** *** Runs of distinct ids are apart *)

Lemma StronglySorted_le_lt (l : list Z) :
  StronglySorted Z.le l -> NoDup l -> StronglySorted Z.lt l.
Proof.
  induction 1 as [|x l Hs IH Hall]; [constructor|].
  intros [Hx Hnd]%NoDup_cons. constructor; [by apply IH|].
  rewrite Forall_forall in Hall |- *. intros y Hy.
  specialize (Hall y Hy). assert (x <> y) by (by intros ->). lia.
Qed.

Lemma runs_apart (rs : list (list Z)) :
  StronglySorted Z.lt (concat rs) -> gapped rs ->
  forall i r1 r2 a b,
    rs !! i = Some r1 -> rs !! S i = Some r2 ->
    last r1 = Some a -> head r2 = Some b -> a + 1 < b.
Proof.
  induction rs as [|r rs IH]; intros Hs Hg i r1 r2 a b Hr1 Hr2 Ha Hb; [done|].
  cbn [concat] in Hs. destruct i as [|i].
  - cbn in Hr1, Hr2. injection Hr1 as ->.
    destruct rs as [|r' rs]; [done|]. cbn in Hr2. injection Hr2 as ->.
    inversion Hg as [| |? ? ? Hgap _]; subst.
    specialize (Hgap a b Ha Hb).
    assert (a < b); [|lia].
    apply (StronglySorted_app_1_elem_of Z.lt r1 (concat (r2 :: rs))); [done| |].
    + by apply last_Some_elem_of.
    + cbn. apply elem_of_app. left. destruct r2; [done|].
      cbn in Hb. injection Hb as ->. left.
  - apply (IH (StronglySorted_app_1_r _ _ _ Hs) (gapped_tail _ _ Hg)
             i r1 r2 a b); done.
Qed.

(** X8. When the ids are distinct, as the ids of a free queue are, each run
    ends at least two below the start of the next: at least one id between
    two neighbouring runs is not free. *)
Theorem distinct_ids_runs_apart (ids : list Z) :
  NoDup ids ->
  exists rep,
    analyze ids = Ok rep
    /\ forall i r1 r2 a b,
         runs rep !! i = Some r1 -> runs rep !! S i = Some r2 ->
         last r1 = Some a -> head r2 = Some b -> a + 1 < b.
Proof.
  intros Hnd. destruct (analyze_runs ids) as (rep & Ha & _ & Hruns & _).
  exists rep. split; [done|]. rewrite Hruns.
  apply runs_apart; [|apply group_runs_gapped].
  rewrite group_runs_concat. apply StronglySorted_le_lt.
  - apply (StronglySorted_merge_sort Z.le).
  - unfold sorted. by rewrite merge_sort_Permutation.
Qed.

Lemma distinct_ids_runs_apart_witness :
  NoDup [33; 10; 11; 34; 12]
  /\ exists rep,
       analyze [33; 10; 11; 34; 12] = Ok rep
       /\ runs rep = [[10; 11; 12]; [33; 34]]
       /\ forall i r1 r2 a b,
            runs rep !! i = Some r1 -> runs rep !! S i = Some r2 ->
            last r1 = Some a -> head r2 = Some b -> a + 1 < b.
Proof.
  assert (Hnd : NoDup [33; 10; 11; 34; 12]).
  { apply (bool_decide_unpack _). vm_compute. exact I. }
  split; [exact Hnd|].
  destruct (distinct_ids_runs_apart [33; 10; 11; 34; 12] Hnd) as (rep & Ha & Hap).
  exists rep. split; [exact Ha|]. split; [|exact Hap].
  vm_compute in Ha. by injection Ha as <-.
Defined.

(** *** Ids that are apart are analysed apart *)

Lemma gapped_app (rs1 rs2 : list (list Z)) :
  gapped rs1 -> gapped rs2 ->
  (forall r1 r2, last rs1 = Some r1 -> head rs2 = Some r2 -> gap r1 r2) ->
  gapped (rs1 ++ rs2).
Proof.
  intros H1 H2 Hg. induction H1 as [|r|r1 r2 rs Hgap Hrest IH]; [done| |].
  - destruct rs2 as [|r2 rs2]; [constructor|].
    constructor; [by apply Hg|done].
  - cbn. constructor; [done|]. apply IH. intros r r' Hl. apply Hg.
    by rewrite last_cons_cons.
Qed.

Lemma group_runs_app (a b : list Z) :
  (forall x y, last a = Some x -> head b = Some y -> y <> x + 1) ->
  group_runs (a ++ b) = group_runs a ++ group_runs b.
Proof.
  intros Hab. symmetry. apply maximal_runs_unique. split; [|split].
  - by rewrite concat_app, !group_runs_concat.
  - apply Forall_app. split; apply group_runs_consecutive.
  - apply gapped_app; [apply group_runs_gapped..|].
    intros r1 r2 Hr1 Hr2 x y Hx Hy. apply Hab.
    + apply last_Some in Hr1 as [rs Hrs].
      pose proof (group_runs_concat a) as Hcat. rewrite Hrs in Hcat.
      rewrite concat_app in Hcat. cbn in Hcat. rewrite app_nil_r in Hcat.
      rewrite <- Hcat. rewrite last_app, Hx. done.
    + destruct (group_runs b) as [|r rs] eqn:E; [done|].
      cbn in Hr2. injection Hr2 as ->.
      pose proof (group_runs_concat b) as Hcat. rewrite E in Hcat.
      rewrite <- Hcat. cbn. destruct r2; [done|]. done.
Qed.

(** X9. When every id of one list is at least two below every id of another,
    analysing the two lists together gives the sorted ids and the runs of the
    first followed by those of the second, and the run counts add up. *)
Theorem analyze_union_apart (l1 l2 : list Z) :
  (forall x y, x ∈ l1 -> y ∈ l2 -> x + 1 < y) ->
  exists rep1 rep2 rep,
    analyze l1 = Ok rep1 /\ analyze l2 = Ok rep2
    /\ analyze (l1 ++ l2) = Ok rep
    /\ free_block_ids rep = free_block_ids rep1 ++ free_block_ids rep2
    /\ runs rep = runs rep1 ++ runs rep2
    /\ run_count rep = (run_count rep1 + run_count rep2)%nat.
Proof.
  intros Hap.
  destruct (analyze_runs l1) as (rep1 & Ha1 & Hf1 & Hr1 & Hc1).
  destruct (analyze_runs l2) as (rep2 & Ha2 & Hf2 & Hr2 & Hc2).
  destruct (analyze_runs (l1 ++ l2)) as (rep & Ha & Hf & Hr & Hc).
  exists rep1, rep2, rep. split; [done|]. split; [done|]. split; [done|].
  assert (Hs : sorted (l1 ++ l2) = sorted l1 ++ sorted l2).
  { apply (Sorted_unique Z.le); [apply sorted_Sorted| |].
    - apply StronglySorted_Sorted. apply StronglySorted_app.
      split; [|split; apply (StronglySorted_merge_sort Z.le)].
      intros x y Hx Hy. rewrite sorted_Permutation in Hx, Hy.
      specialize (Hap x y Hx Hy). lia.
    - by rewrite !sorted_Permutation. }
  assert (Hg : group_runs (sorted l1 ++ sorted l2)
               = group_runs (sorted l1) ++ group_runs (sorted l2)).
  { apply group_runs_app. intros x y Hx%last_Some_elem_of Hy.
    assert (Hy' : y ∈ sorted l2).
    { destruct (sorted l2); [done|]. cbn in Hy. injection Hy as ->. left. }
    rewrite sorted_Permutation in Hx, Hy'. specialize (Hap x y Hx Hy'). lia. }
  rewrite Hf, Hr, Hc, Hf1, Hr1, Hc1, Hf2, Hr2, Hc2, Hs, Hg.
  split; [done|]. split; [done|]. apply length_app.
Qed.

Lemma analyze_union_apart_witness :
  (forall x y, x ∈ [11; 10] -> y ∈ [34; 33; 40] -> x + 1 < y)
  /\ exists rep,
       analyze ([11; 10] ++ [34; 33; 40]) = Ok rep
       /\ runs rep = [[10; 11]] ++ [[33; 34]; [40]].
Proof.
  assert (Hap : forall x y, x ∈ [11; 10] -> y ∈ [34; 33; 40] -> x + 1 < y).
  { intros x y Hx%list_elem_of_In Hy%list_elem_of_In. cbn in Hx, Hy. lia. }
  split; [exact Hap|].
  destruct (analyze_union_apart [11; 10] [34; 33; 40] Hap)
    as (rep1 & rep2 & rep & Ha1 & Ha2 & Ha & _ & Hr & _).
  exists rep. split; [exact Ha|]. rewrite Hr.
  vm_compute in Ha1, Ha2. injection Ha1 as <-. injection Ha2 as <-. reflexivity.
Defined.

End AnalysisFacts.

(** * The script around the analysis (testing.py, lines 22-52, 305-412) *)
Module ScriptFacts.
Import Script.

(** *** Reasoning about bodies that print *)

Lemma io_post_ret {A : Type} (a : A) n (Q : A -> nat -> Prop) E :
  Q a n -> io_post (mret a) n Q E.
Proof. done. Qed.

Lemma io_post_bind {A B : Type} (m : io A) (k : A -> io B) n
    (Q1 : A -> nat -> Prop) (E1 : exc_class -> Prop) Q E :
  io_post m n Q1 E1 ->
  (forall c, E1 c -> E c) ->
  (forall a n', Q1 a n' -> io_post (k a) n' Q E) ->
  io_post (m ≫= k) n Q E.
Proof.
  unfold io_post, mbind, io_bind. intros Hm HE Hk.
  destruct (m n) as [[a|c] n']; [by apply Hk|by apply HE].
Qed.

Lemma io_post_run {A : Type} (m : io A) (Q : A -> Prop) E :
  io_post m 0 (fun a _ => Q a) E ->
  match run_body m with
  | Returns a => Q a
  | Raises c => E c
  end.
Proof. unfold io_post, run_body. by destruct (m 0%nat) as [[a|c] n']. Qed.

Lemma print_post (out : console) n :
  io_post (print out) n (fun _ n' => n' = S n /\ out n = Returns tt)
    (fun c => out n = Raises c).
Proof.
  unfold io_post, print. destruct (out n) as [[]|c]; done.
Qed.

Lemma prints_post (out : console) k n :
  io_post (prints out k) n
    (fun _ n' => n' = (n + k)%nat)
    (fun c => exists j, out j = Raises c).
Proof.
  revert n. induction k as [|k IH]; intros n.
  - apply io_post_ret. lia.
  - cbn [prints]. eapply io_post_bind; [apply print_post| |].
    + intros c Hc. by exists n.
    + intros _ n' [-> _]. specialize (IH (S n)). unfold io_post in *.
      destruct (prints out k (S n)) as [[a|c] n']; [lia|done].
Qed.

Lemma prints_all_prints (out : console) k n :
  prints_all out -> prints out k n = (Returns tt, (n + k)%nat).
Proof.
  intros Hall. revert n. induction k as [|k IH]; intros n.
  - cbn. unfold mret, io_ret. f_equal. lia.
  - cbn [prints]. unfold mbind, io_bind, print. rewrite Hall, IH.
    f_equal. lia.
Qed.

(** *** The [try] blocks of [main] *)

Ltac handler_print out n :=
  let c := fresh "c" in let E := fresh "E" in
  destruct (out n) as [[]|c] eqn:E; cbn;
  [rewrite ?length_app; cbn; split; (reflexivity || lia)
  |right; by exists n].

Lemma try_block_structure_post out o st n :
  io_post (try_block_structure out o st) n
    (fun st' _ =>
       raised_non_exception o = false
       /\ length (results st')
          = (length (results st) + if gave_block o then 1 else 0)%nat)
    (fun c => (c = NonException /\ raised_non_exception o = true)
              \/ raised_by_print out c).
Proof.
  unfold io_post, try_block_structure, try_except, call, print,
    mbind, io_bind, mret, io_ret.
  destruct o as [[blk|]|[]]; cbn.
  - rewrite length_app. cbn. split; (reflexivity || lia).
  - split; (reflexivity || lia).
  - handler_print out n.
  - handler_print out n.
  - by left.
Qed.

Lemma try_cuda_status_post out o st n :
  io_post (try_cuda_status out o st) n
    (fun st' _ =>
       raised_non_exception o = false
       /\ length (results st')
          = (length (results st) + if returned o then 1 else 0)%nat)
    (fun c => (c = NonException /\ raised_non_exception o = true)
              \/ raised_by_print out c).
Proof.
  unfold io_post, try_cuda_status, try_except, call, print,
    mbind, io_bind, mret, io_ret.
  destruct o as [[]|[]]; cbn.
  - rewrite length_app. cbn. split; (reflexivity || lia).
  - rewrite length_app. cbn. split; (reflexivity || lia).
  - handler_print out n.
  - handler_print out n.
  - by left.
Qed.

Lemma try_exploration_post what done out o st n :
  io_post (try_exploration what done out o st) n
    (fun st' _ =>
       raised_non_exception o = false
       /\ length (results st')
          = (length (results st) + if returned o then 1 else 0)%nat)
    (fun c => (c = NonException /\ raised_non_exception o = true)
              \/ raised_by_print out c).
Proof.
  unfold io_post, try_exploration, try_except, call, print,
    mbind, io_bind, mret, io_ret.
  destruct o as [[]|[]]; cbn.
  - rewrite length_app. cbn. split; (reflexivity || lia).
  - handler_print out n.
  - handler_print out n.
  - by left.
Qed.

Lemma print_summary_post out rs n :
  io_post (print_summary out rs) n (fun _ _ => True) (raised_by_print out).
Proof.
  assert (Hsix : forall m,
             io_post (prints out 6) m (fun _ _ => True) (raised_by_print out)).
  { intros m. pose proof (prints_post out 6 m) as H. unfold io_post in *.
    by destruct (prints out 6 m) as [[?|?] ?]. }
  unfold print_summary. destruct rs as [|r rs]; [apply Hsix|].
  eapply io_post_bind; [apply print_post| |].
  { intros c Hc. by exists n. }
  intros _ n1 _. eapply io_post_bind; [apply prints_post|done|].
  intros _ n2 _. apply Hsix.
Qed.

Lemma summarize_length (rs : list string) :
  summarize rs
  = match length rs with
    | O => CouldNotRunTests
    | S n => CompletedExplorations (S n)
    end.
Proof. by destruct rs. Qed.

(** [main] as a whole: what it returns, and what it can raise. *)
Lemma main_spec (out : console) (calls : Calls) :
  match main out calls with
  | Returns s =>
      escapes calls = [false; false; false; false; false; false]
      /\ length (results (progress s)) = count_true (completions calls)
      /\ shown s = summarize (results (progress s))
  | Raises c =>
      (c = NonException /\ true ∈ escapes calls) \/ raised_by_print out c
  end.
Proof.
  unfold main. apply io_post_run.
  assert (Hesc : forall (b : bool) l1 l2,
             b = true -> true ∈ l1 ++ b :: l2).
  { intros b l1 l2 ->. apply elem_of_app. right. left. }
  unfold escapes.
  eapply io_post_bind; [apply prints_post|by right|]. intros _ n0 _.
  eapply io_post_bind; [apply try_block_structure_post| |].
  { intros c [[-> H]|H]; [left; split; [done|]; by apply (Hesc _ [])|by right]. }
  intros st1 n1 [He1 Hl1].
  eapply io_post_bind; [apply try_cuda_status_post| |].
  { intros c [[-> H]|H]; [left; split; [done|]; by apply (Hesc _ [_])|by right]. }
  intros st2 n2 [He2 Hl2].
  eapply io_post_bind; [apply try_exploration_post| |].
  { intros c [[-> H]|H]; [left; split; [done|]; by apply (Hesc _ [_; _])|by right]. }
  intros st3 n3 [He3 Hl3].
  eapply io_post_bind; [apply try_exploration_post| |].
  { intros c [[-> H]|H];
      [left; split; [done|]; by apply (Hesc _ [_; _; _])|by right]. }
  intros st4 n4 [He4 Hl4].
  eapply io_post_bind; [apply try_exploration_post| |].
  { intros c [[-> H]|H];
      [left; split; [done|]; by apply (Hesc _ [_; _; _; _])|by right]. }
  intros st5 n5 [He5 Hl5].
  eapply io_post_bind; [apply try_exploration_post| |].
  { intros c [[-> H]|H];
      [left; split; [done|]; by apply (Hesc _ [_; _; _; _; _])|by right]. }
  intros st6 n6 [He6 Hl6].
  eapply io_post_bind; [apply prints_post|by right|]. intros _ n7 _.
  eapply io_post_bind; [apply print_summary_post|by right|]. intros _ n8 _.
  apply io_post_ret. cbn [progress shown].
  rewrite He1, He2, He3, He4, He5, He6. split; [done|]. split; [|done].
  unfold completions. cbn [length results] in *.
  revert Hl1 Hl2 Hl3 Hl4 Hl5 Hl6.
  destruct (gave_block _), (returned (cuda_status _)),
    (returned (free_block_queue_exploration _)),
    (returned (block_pool_exploration _)), (returned (hash_map_analysis _)),
    (returned (fragmentation_simulation _)); cbn; lia.
Qed.

(** The first print that fails among [m] in a row ends them. *)
Lemma prints_raise out m n k c :
  (k < m)%nat ->
  (forall j, (j < k)%nat -> out (n + j)%nat = Returns tt) ->
  out (n + k)%nat = Raises c ->
  prints out m n = (Raises c, (n + k)%nat).
Proof.
  revert n k. induction m as [|m IH]; intros n k Hk Hbefore Hat; [lia|].
  cbn [prints]. unfold mbind, io_bind, print.
  destruct k as [|k].
  - rewrite Nat.add_0_r in Hat |- *. by rewrite Hat.
  - pose proof (Hbefore 0%nat ltac:(lia)) as H0. rewrite Nat.add_0_r in H0.
    rewrite H0. replace (n + S k)%nat with (S n + k)%nat by lia.
    apply IH; [lia| |].
    + intros j Hj. replace (S n + j)%nat with (n + S j)%nat by lia.
      apply Hbefore. lia.
    + by replace (S n + k)%nat with (n + S k)%nat by lia.
Qed.

Lemma escapes_none (calls : Calls) :
  escapes calls = [false; false; false; false; false; false] ->
  true ∉ escapes calls.
Proof.
  intros -> Hin.
  repeat (apply elem_of_cons in Hin as [?|Hin]; [done|]).
  by apply elem_of_nil in Hin.
Qed.

(** X10. [main] keeps the import errors and all other [Exception]s of its six
    calls to itself, but not those of its own prints, which stand outside
    the [try] blocks or inside their handlers.  If [main] returns, none of
    the calls raised something that is not an [Exception]; what [main] raises
    is such an exception of a call, or the exception of one of its prints.
    On a stdout that takes every print of [main], [main] returns exactly when
    no call raises outside [Exception].  And when one of the seven prints of
    the banner (lines 333-340) is the first to fail, [main] raises its
    exception without calling anything. *)
Theorem main_absorbs_exceptions (out : console) (calls : Calls) :
  match main out calls with
  | Returns _ => true ∉ escapes calls
  | Raises c =>
      (c = NonException /\ true ∈ escapes calls) \/ raised_by_print out c
  end
  /\ (prints_all out ->
      match main out calls with
      | Returns _ => true ∉ escapes calls
      | Raises c => c = NonException /\ true ∈ escapes calls
      end)
  /\ (forall k c,
        (k < 7)%nat ->
        (forall j, (j < k)%nat -> out j = Returns tt) ->
        out k = Raises c ->
        main out calls = Raises c).
Proof.
  pose proof (main_spec out calls) as H.
  split; [|split].
  - destruct (main out calls) as [s|c]; [|exact H].
    destruct H as (H & _). by apply escapes_none.
  - intros Hall. destruct (main out calls) as [s|c].
    + destruct H as (H & _). by apply escapes_none.
    + destruct H as [H|[j Hj]]; [done|]. by rewrite Hall in Hj.
  - intros k c Hk Hbefore Hat. unfold main, run_body.
    unfold mbind at 1. unfold io_bind at 1.
    by rewrite (prints_raise out 7 0 k c Hk Hbefore Hat).
Qed.

Lemma main_absorbs_exceptions_witness :
  let calls := {| block_structure := Raises OtherException;
                  cuda_status := Returns true;
                  free_block_queue_exploration := Raises ImportError;
                  block_pool_exploration := Returns tt;
                  hash_map_analysis := Raises NonException;
                  fragmentation_simulation := Returns tt |} in
  let no_box_drawing : console :=
    fun k => match k with 1%nat => Raises OtherException | _ => Returns tt end in
  main no_box_drawing calls = Raises OtherException
  /\ match main (fun _ => Returns tt) calls with
     | Returns _ => true ∉ escapes calls
     | Raises c => c = NonException /\ true ∈ escapes calls
     end.
Proof.
  intros calls no_box_drawing. split.
  - apply (proj2 (proj2 (main_absorbs_exceptions no_box_drawing calls))
             1%nat OtherException); [lia| |reflexivity].
    intros j Hj. by replace j with 0%nat by lia.
  - apply (proj1 (proj2 (main_absorbs_exceptions (fun _ => Returns tt) calls))).
    by intros k.
Defined.

Lemma count_true_completions_le (calls : Calls) :
  (count_true (completions calls) <= 6)%nat.
Proof.
  unfold completions.
  destruct (gave_block _), (returned (cuda_status _)),
    (returned (free_block_queue_exploration _)),
    (returned (block_pool_exploration _)), (returned (hash_map_analysis _)),
    (returned (fragmentation_simulation _)); cbn; lia.
Qed.

(** X11. When [main] returns, whatever its prints did, [results] has one line
    for each call that came back (for the block-structure exploration: came
    back with a block), at most six; the summary reports that many completed
    explorations, and the message that the tests could not run is shown only
    when there is no such line.  In particular it is not shown when the CUDA
    check came back, even if every vLLM exploration failed. *)
Theorem main_summary (out : console) (calls : Calls) (s : Session) :
  main out calls = Returns s ->
  let n := count_true (completions calls) in
  length (results (progress s)) = n
  /\ (n <= 6)%nat
  /\ shown s = match n with
               | O => CouldNotRunTests
               | S _ => CompletedExplorations n
               end
  /\ (returned (cuda_status calls) = true -> shown s <> CouldNotRunTests).
Proof.
  intros Hmain n. pose proof (main_spec out calls) as H. rewrite Hmain in H.
  destruct H as (_ & Hlen & Hshown). fold n in Hlen.
  split; [done|]. split; [apply count_true_completions_le|].
  rewrite Hshown, summarize_length, Hlen. split; [by destruct n|].
  intros Hcuda. assert (n <> 0)%nat; [|by destruct n].
  unfold n, completions. rewrite Hcuda.
  destruct (gave_block _); cbn; lia.
Qed.

Lemma main_summary_witness :
  let calls := {| block_structure := Returns None;
                  cuda_status := Returns false;
                  free_block_queue_exploration := Raises ImportError;
                  block_pool_exploration := Raises ImportError;
                  hash_map_analysis := Raises OtherException;
                  fragmentation_simulation := Raises ImportError |} in
  let out : console := fun _ => Returns tt in
  exists s, main out calls = Returns s
            /\ results (progress s) = ["⚠ CUDA not available in PyTorch"%string]
            /\ shown s = CompletedExplorations 1.
Proof.
  intros calls out. eexists. split; [reflexivity|]. split; [reflexivity|].
  exact (proj1 (proj2 (proj2 (main_summary out calls _ eq_refl)))).
Defined.

(** *** Without vLLM and PyTorch *)

Ltac run_prints H :=
  unfold run_body;
  repeat (progress (unfold try_except, except_import, except_exception,
                      except_import_or_exception, call, print,
                      mbind, io_bind, mret, io_ret;
                    cbn; rewrite ?H; cbn));
  try reflexivity.

Lemma explore_block_structure_import_error out :
  prints_all out ->
  explore_block_structure out (Raises ImportError) = Returns None.
Proof. intros H. unfold explore_block_structure. run_prints H. Qed.

Lemma check_cuda_status_import_error out ia cv dc dn :
  prints_all out ->
  check_cuda_status out (Raises ImportError) ia cv dc dn = Returns false.
Proof. intros H. unfold check_cuda_status. run_prints H. Qed.

Lemma guarded_exploration_import_error out body :
  prints_all out ->
  guarded_exploration out (Raises ImportError) body = Raises ImportError.
Proof. intros H. unfold guarded_exploration. run_prints H. Qed.

(** X12. With neither vLLM nor PyTorch installed (every import raises an
    import error) and a stdout that takes every print, [main] returns with
    the single result line that CUDA is not available and four explorations
    skipped; the summary counts one completed exploration and the message
    about missing vLLM extensions is not shown. *)
Theorem main_without_vllm_and_torch (env : Environment) :
  import_kv_cache_utils env = Raises ImportError ->
  import_block_pool env = Raises ImportError ->
  import_torch env = Raises ImportError ->
  (forall p, prints_all (stdout env p)) ->
  main_in env
  = Returns
      {| progress :=
           {| results := ["⚠ CUDA not available in PyTorch"%string];
              notices := [Skipped "Free block queue exploration";
                          Skipped "Block pool exploration";
                          Skipped "Hash map analysis";
                          Skipped "Fragmentation simulation"] |};
         shown := CompletedExplorations 1 |}.
Proof.
  intros Hkv Hbp Htorch Hout. unfold main_in, calls_in.
  rewrite Hkv, Hbp, Htorch. cbn [both_imports].
  rewrite explore_block_structure_import_error by apply Hout.
  rewrite check_cuda_status_import_error by apply Hout.
  rewrite !guarded_exploration_import_error by apply Hout.
  pose proof (Hout InMain) as H. unfold main.
  cbn [block_structure cuda_status free_block_queue_exploration
       block_pool_exploration hash_map_analysis fragmentation_simulation].
  unfold try_block_structure, try_cuda_status, try_exploration, print_summary.
  run_prints H.
Qed.

Lemma main_without_vllm_and_torch_witness :
  let env := {| stdout := fun _ _ => Returns tt;
                import_kv_cache_utils := Raises ImportError;
                import_block_pool := Raises ImportError;
                import_torch := Raises ImportError;
                torch_is_available := Raises OtherException;
                torch_cuda_version := Raises OtherException;
                torch_device_count := Raises OtherException;
                torch_device_name := Raises OtherException;
                free_block_queue_body := Returns tt;
                block_pool_body := Returns tt;
                hash_map_body := Returns tt;
                fragmentation_body := Returns tt |} in
  exists s, main_in env = Returns s /\ shown s = CompletedExplorations 1.
Proof.
  intros env. eexists. split.
  - apply (main_without_vllm_and_torch env eq_refl eq_refl eq_refl).
    by intros p k.
  - reflexivity.
Defined.

End ScriptFacts.

(** * More about the pool as testing.py uses it (lines 136-159, 192-217,
      266-302) *)
Module PoolUse.
Import Analyzer Listing AnalyzerFacts Pool Pool.BlockPool PoolFacts.

(** *** Allocation hands out the head of the queue *)

Lemma allocate_round_ref_count p b rest x :
  wf p -> chain (free_block_queue p) = b :: rest ->
  let q := {| chain := rest; num_free := length rest |} in
  let p1 := evict b (with_queue q p) in
  let p2 := with_blocks (alter (with_ref_count 1) b (blocks p1)) p1 in
  ref_count_of x p2 = if decide (x = b) then Some 1 else ref_count_of x p.
Proof.
  intros Hwf Hch q p1 p2.
  assert (Hb0 : ref_count_of b p = Some 0).
  { apply (wf_free p Hwf). rewrite Hch. left. }
  unfold p2. rewrite ref_count_of_alter.
  - destruct (decide (x = b)); [done|]. unfold p1.
    by rewrite evict_ref_count_of.
  - apply (ref_count_of_is_Some b p1 0). unfold p1.
    by rewrite evict_ref_count_of.
Qed.

Lemma allocate_loop_hands_out n p popped :
  wf p -> (n <= length (chain (free_block_queue p)))%nat ->
  exists p',
    allocate_loop n p popped
    = Done p' (popped ++ take n (chain (free_block_queue p)))
    /\ wf p'
    /\ chain (free_block_queue p') = drop n (chain (free_block_queue p))
    /\ forall x, ref_count_of x p'
                 = if decide (x ∈ take n (chain (free_block_queue p)))
                   then Some 1 else ref_count_of x p.
Proof.
  revert p popped. induction n as [|n IH]; intros p popped Hwf Hle.
  - exists p. cbn. rewrite app_nil_r.
    split; [done|]. split; [done|]. split; [done|].
    intros x. rewrite decide_False; [done|]. apply not_elem_of_nil.
  - assert (Hcnt := wf_counter p Hwf). unfold counter_tracks_chain in Hcnt.
    destruct (chain (free_block_queue p)) as [|b rest] eqn:Hch;
      cbn [length] in *; [lia|].
    destruct (allocate_round_wf p b rest Hwf Hch) as [Hwf2 Hq2].
    pose proof (fun x => allocate_round_ref_count p b rest x Hwf Hch) as Hrc2.
    cbn zeta in Hrc2.
    cbn [allocate_loop]. unfold FreeBlockQueue.take_front.
    rewrite Hcnt, Hch.
    destruct (IH _ (popped ++ [b]) Hwf2) as (p' & Hrun & Hwf' & Hch' & Hrc').
    { rewrite Hq2. cbn. lia. }
    exists p'. rewrite Hrun, Hq2. cbn [chain take drop].
    split; [by rewrite <- app_assoc|]. split; [done|].
    split; [by rewrite Hch', Hq2|].
    intros x. rewrite Hrc', Hq2, Hrc2. cbn [chain].
    destruct (decide (x = b)) as [->|Hne].
    + rewrite (decide_True (P := b ∈ b :: take n rest)) by left.
      by destruct (decide (b ∈ take n rest)).
    + destruct (decide (x ∈ take n rest)) as [Hin|Hin].
      * rewrite decide_True by by right. done.
      * rewrite decide_False; [done|]. rewrite elem_of_cons. tauto.
Qed.

(** One round of the allocation loop, in full. *)
Lemma allocate_round_effect p b rest :
  wf p -> chain (free_block_queue p) = b :: rest ->
  let q := {| chain := rest; num_free := length rest |} in
  let p1 := evict b (with_queue q p) in
  let p2 := with_blocks (alter (with_ref_count 1) b (blocks p1)) p1 in
  blocks p2 = alter handed_out b (blocks p)
  /\ cache_index p2 = evict_keys [b] p
  /\ hash_block_size p2 = hash_block_size p
  /\ null_block p2 = null_block p.
Proof.
  intros Hwf Hch q p1 p2.
  assert (Hb0 : ref_count_of b p = Some 0).
  { apply (wf_free p Hwf). rewrite Hch. left. }
  apply ref_count_of_is_Some in Hb0 as [blk Hblk].
  unfold p2, p1, evict, evict_keys, content_hash_of. cbn [foldl].
  cbn [with_queue blocks]. rewrite Hblk. cbn [mbind option_bind].
  destruct (content_hash blk) as [key|] eqn:Hkey.
  - cbn. split; [|done]. rewrite list_alter_alter_eq.
    apply list_alter_ext; [|done]. intros x Hx. rewrite Hblk in Hx.
    injection Hx as <-. done.
  - cbn. split; [|done]. apply list_alter_ext; [|done].
    intros x Hx. rewrite Hblk in Hx. injection Hx as <-.
    unfold handed_out, with_ref_count. by rewrite Hkey.
Qed.

Lemma content_hash_of_alter_ne (f : Block -> Block) b c p bs :
  c <> b -> blocks p = alter f b bs ->
  blocks p !! c ≫= content_hash = bs !! c ≫= content_hash.
Proof. intros Hne ->. by rewrite list_lookup_alter_ne. Qed.

Lemma evict_keys_ext (handed : list nat) (p p' : BlockPool) (idx : gmap Key nat) :
  (forall c, c ∈ handed -> content_hash_of c p' = content_hash_of c p) ->
  foldl (fun idx b =>
           match content_hash_of b p' with
           | Some key => PrefixCacheIndex.remove key b idx
           | None => idx
           end) idx handed
  = foldl (fun idx b =>
             match content_hash_of b p with
             | Some key => PrefixCacheIndex.remove key b idx
             | None => idx
             end) idx handed.
Proof.
  revert idx. induction handed as [|b handed IH]; intros idx Hext; [done|].
  cbn [foldl]. rewrite (Hext b) by left. apply IH.
  intros c Hc. apply Hext. by right.
Qed.

Lemma allocate_loop_effect n p popped :
  wf p -> (n <= length (chain (free_block_queue p)))%nat ->
  exists p',
    allocate_loop n p popped
    = Done p' (popped ++ take n (chain (free_block_queue p)))
    /\ (forall x, blocks p' !! x
                  = if decide (x ∈ take n (chain (free_block_queue p)))
                    then handed_out <$> blocks p !! x else blocks p !! x)
    /\ cache_index p' = evict_keys (take n (chain (free_block_queue p))) p
    /\ hash_block_size p' = hash_block_size p
    /\ null_block p' = null_block p.
Proof.
  revert p popped. induction n as [|n IH]; intros p popped Hwf Hle.
  - exists p. cbn. rewrite app_nil_r. split; [done|]. split; [|done].
    intros x. rewrite decide_False; [done|]. apply not_elem_of_nil.
  - assert (Hcnt := wf_counter p Hwf). unfold counter_tracks_chain in Hcnt.
    assert (Hnd := wf_nodup p Hwf).
    destruct (chain (free_block_queue p)) as [|b rest] eqn:Hch;
      cbn [length] in *; [lia|].
    apply NoDup_cons in Hnd as [Hb Hnd].
    destruct (allocate_round_wf p b rest Hwf Hch) as [Hwf2 Hq2].
    destruct (allocate_round_effect p b rest Hwf Hch)
      as (Hbl2 & Hidx2 & Hh2 & Hnb2).
    cbn zeta in Hbl2, Hidx2, Hh2, Hnb2.
    cbn [allocate_loop]. unfold FreeBlockQueue.take_front.
    rewrite Hcnt, Hch.
    destruct (IH _ (popped ++ [b]) Hwf2)
      as (p' & Hrun & Hbl' & Hidx' & Hh' & Hnb').
    { rewrite Hq2. cbn. lia. }
    exists p'. rewrite Hrun, Hq2. cbn [chain take].
    split; [by rewrite <- app_assoc|].
    rewrite Hq2 in Hbl', Hidx'. cbn [chain] in Hbl', Hidx'.
    assert (Hrest : forall c, c ∈ take n rest -> c <> b).
    { intros c Hc ->. apply Hb. by apply (subseteq_take n). }
    split; [|split; [|split; congruence]].
    + intros x. rewrite Hbl', Hbl2.
      destruct (decide (x = b)) as [->|Hne].
      * rewrite (decide_True (P := b ∈ b :: take n rest)) by left.
        rewrite decide_False by (intros Hin; by apply (Hrest b)).
        by rewrite list_lookup_alter_eq.
      * rewrite list_lookup_alter_ne by done.
        destruct (decide (x ∈ take n rest)) as [Hin|Hin].
        -- rewrite decide_True by by right. done.
        -- rewrite decide_False; [done|]. rewrite elem_of_cons. tauto.
    + rewrite Hidx'. unfold evict_keys at 1. rewrite Hidx2.
      unfold evict_keys. cbn [foldl]. apply evict_keys_ext.
      intros c Hc. unfold content_hash_of.
      apply (content_hash_of_alter_ne handed_out b c _ (blocks p));
        [by apply Hrest|done].
Qed.

Lemma remove_lookup (key key' : Key) (b : nat) (idx : gmap Key nat) :
  PrefixCacheIndex.remove key' b idx !! key
  = if decide (key = key' /\ idx !! key' = Some b) then None else idx !! key.
Proof.
  unfold PrefixCacheIndex.remove.
  destruct (decide (idx !! key' = Some b)) as [Hb|Hb].
  - rewrite bool_decide_eq_true_2 by done.
    destruct (decide (key = key')) as [->|Hne].
    + rewrite decide_True by done. apply lookup_delete_eq.
    + rewrite decide_False by tauto. by apply lookup_delete_ne.
  - rewrite bool_decide_eq_false_2 by done. by rewrite decide_False by tauto.
Qed.

(** Evicting never adds an entry, and the key of an evicted block no longer
    names that block. *)
Lemma evict_keys_lookup (handed : list nat) (p : BlockPool) (key : Key) (c : nat) :
  evict_keys handed p !! key = Some c ->
  cache_index p !! key = Some c
  /\ ~ (c ∈ handed /\ content_hash_of c p = Some key).
Proof.
  unfold evict_keys. generalize (cache_index p).
  induction handed as [|b handed IH]; intros idx; cbn [foldl].
  - intros H. split; [done|]. by intros [?%elem_of_nil _].
  - intros H. apply IH in H as [Hc Hnot].
    destruct (content_hash_of b p) as [key'|] eqn:Hkey.
    + rewrite remove_lookup in Hc.
      destruct (decide (key = key' /\ idx !! key' = Some b)) as [[-> Hb]|Hd];
        [done|].
      split; [done|]. intros [[->|Hin]%elem_of_cons Hh]; [|tauto].
      rewrite Hkey in Hh. injection Hh as ->. tauto.
    + split; [done|]. intros [[->|Hin]%elem_of_cons Hh]; [|tauto].
      by rewrite Hkey in Hh.
Qed.

(** X13. In a well-formed pool, allocate(n) with n no more than free_count
    succeeds, and this is all it does: it returns the first n blocks of the
    free queue in queue order and leaves the rest of the queue in place, so
    free_count drops by n; each returned block gets ref_count 1 and loses its
    hash, every other block stays as it is; the index loses, for each
    returned block that carried a hash, the entry of that key if it named the
    block, and nothing else, so that no returned block can be looked up by its
    old key; capacity, hash_block_size and the null block are unchanged. *)
Theorem allocate_hands_out_queue_head (p : BlockPool) (n : nat) :
  wf p -> (n <= free_count p)%nat ->
  let s := FreeBlockQueue.snapshot (free_block_queue p) in
  exists p',
    allocate n p = (Ok (take n s), p')
    /\ FreeBlockQueue.snapshot (free_block_queue p') = drop n s
    /\ free_count p' = (free_count p - n)%nat
    /\ (forall b, b ∈ take n s -> ref_count_of b p' = Some 1)
    /\ (forall b, b ∉ take n s -> ref_count_of b p' = ref_count_of b p)
    /\ (forall b blk, b ∈ take n s -> blocks p !! b = Some blk ->
          blocks p' !! b = Some (handed_out blk))
    /\ (forall b, b ∉ take n s -> blocks p' !! b = blocks p !! b)
    /\ cache_index p' = evict_keys (take n s) p
    /\ (forall b key, b ∈ take n s -> content_hash_of b p = Some key ->
          PrefixCacheIndex.lookup key (cache_index p') <> Some b)
    /\ (forall key c, PrefixCacheIndex.lookup key (cache_index p') = Some c ->
          PrefixCacheIndex.lookup key (cache_index p) = Some c)
    /\ capacity p' = capacity p
    /\ hash_block_size p' = hash_block_size p
    /\ null_block p' = null_block p
    /\ wf p'.
Proof.
  intros Hwf Hle s. unfold s, FreeBlockQueue.snapshot.
  assert (Hcnt := wf_counter p Hwf). unfold counter_tracks_chain in Hcnt.
  unfold free_count, FreeBlockQueue.size in *. rewrite Hcnt in Hle.
  destruct (allocate_loop_hands_out n p [] Hwf Hle)
    as (p' & Hrun & Hwf' & Hch' & Hrc').
  destruct (allocate_loop_effect n p [] Hwf Hle)
    as (p'' & Hrun' & Hbl & Hidx & Hh & Hnb).
  rewrite Hrun in Hrun'. injection Hrun' as <-.
  exists p'. unfold allocate. rewrite Hrun. cbn [app].
  split; [done|]. split; [done|]. split.
  { rewrite (wf_counter p' Hwf'), Hch', Hcnt. apply length_drop. }
  split. { intros b Hb. rewrite Hrc'. by rewrite decide_True. }
  split. { intros b Hb. rewrite Hrc'. by rewrite decide_False. }
  split. { intros b blk Hb Hblk. rewrite Hbl, decide_True by done. by rewrite Hblk. }
  split. { intros b Hb. rewrite Hbl. by rewrite decide_False. }
  split; [done|]. unfold PrefixCacheIndex.lookup. rewrite Hidx.
  split. { intros b key Hb Hkey Hl. apply evict_keys_lookup in Hl. tauto. }
  split. { intros key c Hl. by apply evict_keys_lookup in Hl as [? _]. }
  split; [|done].
  rewrite <- (wf_length p' Hwf'), <- (wf_length p Hwf).
  rewrite <- (length_fmap id (blocks p')), <- (length_fmap id (blocks p)).
  rewrite (wf_ids p' Hwf'), (wf_ids p Hwf), !length_seq.
  pose proof (allocate_loop_capacity n p []) as Hcap. by rewrite Hrun in Hcap.
Qed.

Lemma allocate_hands_out_queue_head_witness :
  exists p',
    allocate 2 Cached.pool = (Ok [2; 0]%nat, p')
    /\ free_count p' = 0%nat
    /\ content_hash_of 0 Cached.pool = Some Cached.key0
    /\ PrefixCacheIndex.lookup Cached.key0 (cache_index Cached.pool) = Some 0%nat
    /\ PrefixCacheIndex.lookup Cached.key0 (cache_index p') <> Some 0%nat
    /\ blocks p' !! 0%nat = Some (mkBlock 0 1 None false).
Proof.
  destruct (allocate_hands_out_queue_head Cached.pool 2 cached_pool_wf)
    as (p' & Ha & _ & Hf & _ & _ & Hbl & _ & _ & Hgone & _).
  { vm_compute. lia. }
  exists p'. split; [exact Ha|]. split; [exact Hf|].
  split; [reflexivity|]. split; [vm_compute; reflexivity|]. split.
  - apply (Hgone 0%nat Cached.key0); [right; left|reflexivity].
  - apply (Hbl 0%nat (mkBlock 0 0 (Some Cached.key0) false));
      [right; left|reflexivity].
Defined.

(** *** Release appends to the tail of the queue *)

Lemma release_one_sole_holder p b :
  wf p -> ref_count_of b p = Some 1 ->
  exists p',
    release_one b p = Ok p'
    /\ chain (free_block_queue p') = chain (free_block_queue p) ++ [b]
    /\ (forall x, ref_count_of x p'
                  = if decide (x = b) then Some 0 else ref_count_of x p)
    /\ wf p'.
Proof.
  intros Hwf Hrc.
  assert (Hnotin : b ∉ chain (free_block_queue p)).
  { rewrite (wf_free p Hwf), Hrc. by intros [=]. }
  pose proof Hrc as Hrc'. unfold ref_count_of in Hrc'.
  destruct (blocks p !! b) as [blk|] eqn:Hb; [|done].
  injection Hrc' as Hblk.
  assert (Hone : release_one b p
                 = Ok (with_queue
                         {| chain := chain (free_block_queue p) ++ [b];
                            num_free := S (num_free (free_block_queue p)) |}
                         (with_blocks (alter (with_ref_count 0) b (blocks p)) p))).
  { unfold release_one. rewrite Hb, Hblk. cbn [Z.leb Z.compare Z.sub Z.add
      Z.opp Z.pos_sub with_ref_count ref_count Z.eqb].
    unfold FreeBlockQueue.push_back. cbn [with_ref_count ref_count id
      with_blocks free_block_queue].
    rewrite (wf_block_id p b blk Hwf Hb).
    rewrite bool_decide_eq_true_2 by done. done. }
  eexists. split; [exact Hone|]. split; [done|]. split.
  - intros x. apply (ref_count_of_alter p b 0 x). by rewrite Hb.
  - by apply (release_one_wf b p).
Qed.

Lemma release_loop_sole_holder bs p :
  wf p -> NoDup bs -> (forall b, b ∈ bs -> ref_count_of b p = Some 1) ->
  exists p',
    release_loop bs p = Ok p'
    /\ chain (free_block_queue p') = chain (free_block_queue p) ++ bs
    /\ (forall x, ref_count_of x p'
                  = if decide (x ∈ bs) then Some 0 else ref_count_of x p)
    /\ wf p'.
Proof.
  revert p. induction bs as [|b bs IH]; intros p Hwf Hnd Hall.
  - exists p. cbn. rewrite app_nil_r. split; [done|]. split; [done|].
    split; [|done]. intros x. rewrite decide_False; [done|]. apply not_elem_of_nil.
  - apply NoDup_cons in Hnd as [Hb Hnd].
    destruct (release_one_sole_holder p b Hwf) as (p1 & Hone & Hch1 & Hrc1 & Hwf1).
    { apply Hall. left. }
    destruct (IH p1 Hwf1 Hnd) as (p' & Hloop & Hch' & Hrc' & Hwf').
    { intros x Hx. rewrite Hrc1. rewrite decide_False by (by intros ->).
      apply Hall. by right. }
    exists p'. cbn [release_loop]. rewrite Hone. cbn [mbind result_bind].
    split; [done|]. split; [by rewrite Hch', Hch1, <- app_assoc|].
    split; [|done]. intros x. rewrite Hrc', Hrc1.
    destruct (decide (x = b)) as [->|Hne].
    + rewrite (decide_True (P := b ∈ b :: bs)) by left.
      by rewrite decide_False.
    + destruct (decide (x ∈ bs)) as [Hin|Hin].
      * rewrite decide_True by by right. done.
      * rewrite decide_False; [done|]. rewrite elem_of_cons. tauto.
Qed.

(** Releasing one held block, whether or not others hold it too. *)
Lemma release_one_held p b blk :
  wf p -> blocks p !! b = Some blk -> 1 <= ref_count blk ->
  exists p',
    release_one b p = Ok p'
    /\ chain (free_block_queue p')
       = chain (free_block_queue p) ++ (if decide (ref_count blk = 1) then [b] else [])
    /\ blocks p' = alter released b (blocks p)
    /\ cache_index p' = cache_index p
    /\ hash_block_size p' = hash_block_size p
    /\ null_block p' = null_block p
    /\ wf p'.
Proof.
  intros Hwf Hb Hheld.
  assert (Hrc : ref_count_of b p = Some (ref_count blk)).
  { unfold ref_count_of. by rewrite Hb. }
  assert (Hnotin : b ∉ chain (free_block_queue p)).
  { rewrite (wf_free p Hwf), Hrc. intros [=]. lia. }
  assert (Halt : alter (with_ref_count (ref_count blk - 1)) b (blocks p)
                 = alter released b (blocks p)).
  { apply list_alter_ext; [|done]. intros x Hx. rewrite Hb in Hx.
    by injection Hx as <-. }
  destruct (release_one b p) as [p'|e] eqn:Hone.
  2: { exfalso. revert Hone. unfold release_one. rewrite Hb.
       destruct (Z.leb_spec (ref_count blk) 0); [lia|].
       cbn [with_ref_count ref_count].
       destruct (Z.eqb_spec (ref_count blk - 1) 0); [|done].
       unfold FreeBlockQueue.push_back. cbn [with_ref_count ref_count id
         with_blocks free_block_queue].
       rewrite (wf_block_id p b blk Hwf Hb).
       by rewrite bool_decide_eq_true_2. }
  exists p'. split; [done|].
  pose proof (release_one_wf b p p' Hwf Hone) as Hwf'.
  revert Hone. unfold release_one. rewrite Hb.
  destruct (Z.leb_spec (ref_count blk) 0); [lia|].
  cbn [with_ref_count ref_count].
  destruct (Z.eqb_spec (ref_count blk - 1) 0) as [H0|Hne].
  - unfold FreeBlockQueue.push_back. cbn [with_ref_count ref_count id
      with_blocks free_block_queue].
    rewrite (wf_block_id p b blk Hwf Hb).
    rewrite bool_decide_eq_true_2 by done. cbn [mbind result_bind].
    intros [= <-]. cbn in *. rewrite decide_True by lia.
    rewrite Halt in Hwf' |- *.
    do 5 (split; [done|]). exact Hwf'.
  - intros [= <-]. cbn in *. rewrite decide_False by lia.
    rewrite app_nil_r. rewrite Halt in Hwf' |- *. do 5 (split; [done|]). exact Hwf'.
Qed.

Lemma filter_agree (P Q : nat -> Prop)
    `{!forall x, Decision (P x), !forall x, Decision (Q x)} (l : list nat) :
  (forall x, x ∈ l -> P x <-> Q x) -> filter P l = filter Q l.
Proof.
  induction l as [|a l IH]; intros Hagree; [done|].
  rewrite !filter_cons, IH by (intros x Hx; apply Hagree; by right).
  destruct (decide (P a)) as [Hp|Hp], (decide (Q a)) as [Hq|Hq]; try done.
  - destruct Hq. apply (Hagree a); [left|done].
  - destruct Hp. apply (Hagree a); [left|done].
Qed.

Lemma release_loop_held bs p :
  wf p -> NoDup bs ->
  (forall b, b ∈ bs -> exists v, ref_count_of b p = Some v /\ 1 <= v) ->
  exists p',
    release_loop bs p = Ok p'
    /\ chain (free_block_queue p')
       = chain (free_block_queue p)
         ++ filter (fun b => ref_count_of b p = Some 1) bs
    /\ (forall x, blocks p' !! x
                  = if decide (x ∈ bs) then released <$> blocks p !! x
                    else blocks p !! x)
    /\ cache_index p' = cache_index p
    /\ hash_block_size p' = hash_block_size p
    /\ null_block p' = null_block p
    /\ wf p'.
Proof.
  revert p. induction bs as [|b bs IH]; intros p Hwf Hnd Hall.
  - exists p. cbn. rewrite app_nil_r. split; [done|]. split; [done|].
    split; [|done]. intros x. rewrite decide_False; [done|]. apply not_elem_of_nil.
  - apply NoDup_cons in Hnd as [Hb Hnd].
    destruct (Hall b) as (v & Hv & Hheld); [left|].
    pose proof Hv as Hv'. unfold ref_count_of in Hv'.
    destruct (blocks p !! b) as [blk|] eqn:Hblk; [|done].
    injection Hv' as Hv'. subst v.
    destruct (release_one_held p b blk Hwf Hblk Hheld)
      as (p1 & Hone & Hch1 & Hbl1 & Hidx1 & Hh1 & Hnb1 & Hwf1).
    assert (Hsame : forall c, c <> b -> ref_count_of c p1 = ref_count_of c p).
    { intros c Hc. unfold ref_count_of. rewrite Hbl1.
      by rewrite list_lookup_alter_ne. }
    destruct (IH p1 Hwf1 Hnd) as (p' & Hloop & Hch' & Hbl' & Hidx' & Hh' & Hnb' & Hwf').
    { intros c Hc. rewrite Hsame by (by intros ->). apply Hall. by right. }
    exists p'. cbn [release_loop]. rewrite Hone. cbn [mbind result_bind].
    split; [done|]. split.
    { rewrite Hch', Hch1, <- app_assoc. f_equal. rewrite filter_cons.
      rewrite Hv.
      assert (Hf : filter (fun c => ref_count_of c p1 = Some 1) bs
                   = filter (fun c => ref_count_of c p = Some 1) bs).
      { apply filter_agree. intros c Hc.
        rewrite Hsame; [done|]. by intros ->. }
      rewrite Hf. destruct (decide (ref_count blk = 1)) as [H1|H1].
      - rewrite decide_True by congruence. done.
      - rewrite decide_False; [done|]. intros [=]. done. }
    split; [|split; [congruence|split; [congruence|split; [congruence|done]]]].
    intros x. rewrite Hbl', Hbl1.
    destruct (decide (x = b)) as [->|Hne].
    + rewrite (decide_True (P := b ∈ b :: bs)) by left.
      rewrite decide_False by done. by rewrite list_lookup_alter_eq.
    + rewrite list_lookup_alter_ne by done.
      destruct (decide (x ∈ bs)) as [Hin|Hin].
      * rewrite decide_True by by right. done.
      * rewrite decide_False; [done|]. rewrite elem_of_cons. tauto.
Qed.

(** X14. In a well-formed pool, releasing a list of distinct held blocks
    (ref_count at least 1, held by one request or shared by several)
    succeeds, and this is all it does: every released block has one reference
    fewer and is otherwise unchanged, hash included; the blocks that had
    ref_count 1 are appended to the tail of the free queue in the order given,
    behind the blocks already free, while a block others still hold stays out
    of the queue; free_count grows by the number of blocks freed; the other
    blocks, the cache index, capacity, hash_block_size and the null block stay
    as they are. *)
Theorem release_appends_to_tail (p : BlockPool) (bs : list nat) :
  wf p -> NoDup bs ->
  (forall b, b ∈ bs -> exists v, ref_count_of b p = Some v /\ 1 <= v) ->
  let freed := filter (fun b => ref_count_of b p = Some 1) bs in
  exists p',
    release bs p = (Ok tt, p')
    /\ FreeBlockQueue.snapshot (free_block_queue p')
       = FreeBlockQueue.snapshot (free_block_queue p) ++ freed
    /\ free_count p' = (free_count p + length freed)%nat
    /\ (forall b blk, b ∈ bs -> blocks p !! b = Some blk ->
          blocks p' !! b = Some (released blk))
    /\ (forall b, b ∉ bs -> blocks p' !! b = blocks p !! b)
    /\ cache_index p' = cache_index p
    /\ capacity p' = capacity p
    /\ hash_block_size p' = hash_block_size p
    /\ null_block p' = null_block p
    /\ wf p'.
Proof.
  intros Hwf Hnd Hall freed.
  destruct (release_loop_held bs p Hwf Hnd Hall)
    as (p' & Hloop & Hch & Hbl & Hidx & Hh & Hnb & Hwf').
  exists p'. unfold release, FreeBlockQueue.snapshot. rewrite Hloop.
  split; [done|]. split; [done|]. split.
  { unfold free_count, FreeBlockQueue.size.
    rewrite (wf_counter p' Hwf'), (wf_counter p Hwf), Hch. apply length_app. }
  split. { intros b blk Hb Hblk. rewrite Hbl, decide_True by done. by rewrite Hblk. }
  split. { intros b Hb. rewrite Hbl. by rewrite decide_False. }
  split; [done|]. split; [|done].
  by apply (release_loop_capacity bs).
Qed.

Lemma release_appends_to_tail_witness :
  let p := run [TryCacheLookup "hash_0" 0; Retain 0] Cached.pool in
  ref_count_of 0 p = Some 2 /\ ref_count_of 1 p = Some 1
  /\ exists p',
       release [0; 1]%nat p = (Ok tt, p')
       /\ FreeBlockQueue.snapshot (free_block_queue p') = [2; 1]%nat
       /\ ref_count_of 0 p' = Some 1 /\ ref_count_of 1 p' = Some 0
       /\ cache_index p' = cache_index Cached.pool.
Proof.
  intros p.
  assert (Hwf : wf p).
  { apply run_wf; [apply cached_pool_wf|vm_compute; reflexivity]. }
  split; [vm_compute; reflexivity|]. split; [vm_compute; reflexivity|].
  destruct (release_appends_to_tail p [0; 1]%nat Hwf)
    as (p' & Hr & Hs & _ & _ & _ & Hidx & _).
  { apply (bool_decide_unpack _). vm_compute. exact I. }
  { intros b Hb%list_elem_of_In. cbn in Hb. destruct Hb as [<-|[<-|[]]].
    - exists 2. split; [vm_compute; reflexivity|lia].
    - exists 1. split; [vm_compute; reflexivity|lia]. }
  exists p'. split; [exact Hr|]. split; [exact Hs|].
  assert (Hp' : p' = (release [0; 1]%nat p).2) by by rewrite Hr.
  split; [rewrite Hp'; vm_compute; reflexivity|].
  split; [rewrite Hp'; vm_compute; reflexivity|].
  rewrite Hidx. vm_compute. reflexivity.
Defined.

(** X15. In a well-formed pool, allocating n blocks (n no more than
    free_count) and then releasing the first k of them (as explore_block_pool
    does with n = 20, k = 10) leaves free_count - n + k blocks free; the queue
    then holds the blocks that were never handed out, followed by the k
    released blocks in their old order. *)
Theorem allocate_then_release_prefix (p : BlockPool) (n k : nat) :
  wf p -> (n <= free_count p)%nat -> (k <= n)%nat ->
  let s := FreeBlockQueue.snapshot (free_block_queue p) in
  exists bs p1 p2,
    allocate n p = (Ok bs, p1)
    /\ release (take k bs) p1 = (Ok tt, p2)
    /\ FreeBlockQueue.snapshot (free_block_queue p2) = drop n s ++ take k s
    /\ free_count p2 = (free_count p - n + k)%nat
    /\ wf p2.
Proof.
  intros Hwf Hle Hk s. unfold s, FreeBlockQueue.snapshot.
  assert (Hcnt := wf_counter p Hwf). unfold counter_tracks_chain in Hcnt.
  unfold free_count, FreeBlockQueue.size in *. rewrite Hcnt in Hle.
  destruct (allocate_loop_hands_out n p [] Hwf Hle)
    as (p1 & Hrun & Hwf1 & Hch1 & Hrc1).
  set (ch := chain (free_block_queue p)) in *.
  assert (Hpre : take k (take n ch) = take k ch).
  { rewrite take_take. f_equal. lia. }
  destruct (release_loop_sole_holder (take k ch) p1 Hwf1)
    as (p2 & Hloop & Hch2 & _ & Hwf2).
  { exact (sublist_NoDup (take k ch) ch (wf_nodup p Hwf) (sublist_take ch k)). }
  { intros b Hb. rewrite Hrc1. rewrite decide_True; [done|].
    rewrite <- Hpre in Hb. by apply (subseteq_take k) in Hb. }
  exists (take n ch), p1, p2. unfold allocate. rewrite Hrun. cbn [app].
  split; [done|]. unfold release. rewrite Hpre, Hloop.
  split; [done|]. split; [by rewrite Hch2, Hch1|]. split; [|done].
  rewrite (wf_counter p2 Hwf2), Hch2, Hch1, Hcnt.
  rewrite length_app, length_drop, length_take. fold ch. lia.
Qed.

Lemma allocate_then_release_prefix_witness :
  exists bs p1 p2,
    allocate 20 (new 100 16) = (Ok bs, p1)
    /\ release (take 10 bs) p1 = (Ok tt, p2)
    /\ free_count p1 = 80%nat /\ free_count p2 = 90%nat.
Proof.
  destruct (allocate_then_release_prefix (new 100 16) 20 10)
    as (bs & p1 & p2 & Ha & Hr & _ & Hf & _).
  { apply new_wf. }
  { vm_compute. lia. }
  { lia. }
  exists bs, p1, p2. split; [exact Ha|]. split; [exact Hr|].
  split; [|exact Hf]. vm_compute in Ha. injection Ha as _ <-. reflexivity.
Defined.

(** *** The snapshot the analysis reads *)

(** X16. After any sequence of pool operations on a fresh pool of capacity C
    in which retain is only called on held blocks, the ids of the free queue
    are distinct and lie in 0..C-1, there are free_count of them, and the
    analysis of these ids reports total_free = free_count (no metrics exactly
    when nothing is free) and a largest run of at most free_count blocks. *)
Theorem reachable_snapshot_analysis
    (C : nat) (hash_block_size : Z) (ops : list op) :
  retains_held ops (new C hash_block_size) = true ->
  let p := run ops (new C hash_block_size) in
  NoDup (free_ids_of p)
  /\ length (free_ids_of p) = free_count p
  /\ (free_count p <= C)%nat
  /\ (forall x, x ∈ free_ids_of p -> 0 <= x < Z.of_nat C)
  /\ exists rep,
       analyze (free_ids_of p) = Ok rep
       /\ match metrics rep with
          | None => free_count p = 0%nat
          | Some m =>
              total_free m = free_count p
              /\ (largest_run m <= free_count p)%nat
          end.
Proof.
  intros Hops p.
  assert (Hwf : wf p) by (apply run_wf; [apply new_wf|done]).
  assert (Hcap : capacity p = C) by apply run_capacity.
  assert (Hlen : length (free_ids_of p) = free_count p).
  { unfold free_ids_of, FreeBlockQueue.snapshot, free_count, FreeBlockQueue.size.
    by rewrite length_map, (wf_counter p Hwf). }
  split.
  { unfold free_ids_of, FreeBlockQueue.snapshot.
    apply (NoDup_fmap_2 Z.of_nat), (wf_nodup p Hwf). }
  split; [done|]. split.
  { pose proof (wf_count p Hwf). lia. }
  split.
  { intros x (b & -> & Hb)%(list_elem_of_fmap Z.of_nat).
    apply (wf_free p Hwf) in Hb. apply ref_count_of_is_Some in Hb as [blk Hblk].
    apply lookup_lt_Some in Hblk. rewrite (wf_length p Hwf), Hcap in Hblk. lia. }
  destruct (free_ids_of p) as [|x ids] eqn:E.
  - eexists. split; [apply analyze_nil|]. cbn. by rewrite <- Hlen.
  - eexists. split; [by apply analyze_cons|]. cbn [metrics].
    unfold metrics_of. cbn [total_free largest_run].
    rewrite sorted_length. split; [done|]. rewrite <- Hlen.
    rewrite <- (sorted_length (x :: ids)).
    destruct (largest_run_spec (group_runs (sorted (x :: ids))))
      as [(r & Hr & <-) _].
    { rewrite group_runs_nil_iff, sorted_nil_iff. done. }
    assert (Hsum : sum_list (map (@length Z) (group_runs (sorted (x :: ids))))
                   = length (sorted (x :: ids))).
    { by rewrite sum_list_lengths, group_runs_concat. }
    rewrite <- Hsum. apply (sum_list_with_in (length r) Datatypes.id). by apply (list_elem_of_fmap_2 (@length Z)).
Qed.

Lemma reachable_snapshot_analysis_witness :
  let ops := [Allocate 10; Allocate 15; Allocate 8;
              Release (seq 10 15)] in
  let p := run ops (new 50 16) in
  retains_held ops (new 50 16) = true
  /\ length (free_ids_of p) = 32%nat
  /\ length (free_ids_of p) = free_count p.
Proof.
  intros ops p.
  assert (Hops : retains_held ops (new 50 16) = true) by (vm_compute; reflexivity).
  split; [exact Hops|]. split; [vm_compute; reflexivity|].
  exact (proj1 (proj2 (reachable_snapshot_analysis 50 16 ops Hops))).
Defined.

(** *** The prefix-cache index *)

(** X17. Inserting a block under a key that is not mapped makes lookup return
    that block and the size grow by one; removing the key with that block's id
    gives the index of before, and removing it with any other id changes
    nothing. *)
Theorem index_insert_lookup_remove
    (idx : gmap Key nat) (key : Key) (b : Block) :
  PrefixCacheIndex.lookup key idx = None ->
  let idx' := PrefixCacheIndex.insert key b idx in
  PrefixCacheIndex.lookup key idx' = Some (id b)
  /\ PrefixCacheIndex.size idx' = S (PrefixCacheIndex.size idx)
  /\ PrefixCacheIndex.remove key (id b) idx' = idx
  /\ forall other, other <> id b -> PrefixCacheIndex.remove key other idx' = idx'.
Proof.
  unfold PrefixCacheIndex.lookup, PrefixCacheIndex.size, PrefixCacheIndex.remove,
    PrefixCacheIndex.insert.
  intros Hfresh. rewrite Hfresh. cbn zeta. rewrite lookup_insert_eq.
  split; [done|]. split; [by apply map_size_insert_None|]. split.
  - rewrite bool_decide_eq_true_2 by done.
    rewrite delete_insert_eq. by apply delete_id.
  - intros other Hne. rewrite bool_decide_eq_false_2; [done|]. congruence.
Qed.

Lemma index_insert_lookup_remove_witness :
  let key : Key := ("hash_0"%string, 0) in
  let idx' := PrefixCacheIndex.insert key (mkBlock 0 0 None false) ∅ in
  PrefixCacheIndex.lookup key idx' = Some 0%nat
  /\ PrefixCacheIndex.remove key 0%nat idx' = ∅.
Proof.
  intros key idx'.
  destruct (index_insert_lookup_remove ∅ key (mkBlock 0 0 None false))
    as (Hl & _ & Hr & _); [reflexivity|].
  split; [exact Hl|exact Hr].
Defined.

End PoolUse.
